(** * The Node.js runtime emulation loop of [support/nodejs-runtime/index.ts]

    The worker resolves one handler, then polls the control endpoint for
    invocations, calls the handler and posts the result or the error back.
    The script is a sequence of [await]s at the top level of a module; it is
    embedded here as the state machine that [async]/[await] denotes: one
    control state per suspension point, one transition per settled promise.

    Everything the script gets from Node (path, url, JSON, the V8 stack
    capture) is a field of [Platform]; everything it gets from the outside
    world (the file system, the module loader, the control endpoint, and the
    handler that the loaded module exports) is a field of [Env].  Time is a
    logical clock in milliseconds. *)

From Stdlib Require Import Ascii String.
From stdpp Require Import base strings gmap list pretty.

Local Open Scope string_scope.
Local Open Scope list_scope.
Set Warnings "-register-all".

(** ** Data *)

(** Values that cross the handler boundary ([request], [response]: [any]).
    [VOpaque] stands for what [JSON.stringify] cannot take (a BigInt, a
    cyclic object). *)
Inductive Value :=
| VUndefined
| VNull
| VBool (b : bool)
| VNum (n : Z)
| VStr (s : string)
| VArr (items : list Value)
| VObj (fields : list (string * Value))
| VOpaque (tag : nat).

(** What a [catch (ex: any)] may receive.  Reading [ex.message] of [null] or
    [undefined] throws; on anything else it yields a string or [undefined].
    [ex.stack] is a string or nullish ([ThrownObj]), or something else that
    has no [split] to call ([ThrownOddStack], such as [{ stack: 1 }]). *)
Inductive Thrown :=
| ThrownNullish
| ThrownObj (message : option string) (stack : option string)
| ThrownOddStack (message : option string).

(** [path.parse] result, the three fields the script reads. *)
Record ParsedPath := { dir : string; name : string; ext : string }.

(** [workerData]. *)
Record Input := { handler : string; out : string; url : string }.

(** Argument of the local [fetch] (lines 19-24). *)
Record Request := {
  req_path : string;
  req_method : string;
  req_headers : list (string * string);
  req_body : option string
}.

(** What [fetch] resolves with (lines 44-48). *)
Record Response := {
  statusCode : Z;
  headers : gmap string string;
  body : string
}.

(** [context] (lines 95-98, 106-109); a missing header leaves [undefined]. *)
Record Context := {
  awsRequestId : option string;
  invokedFunctionArn : option string
}.

(** How an awaited promise settles, and after how many milliseconds. *)
Inductive FetchReply :=
| Resolve (dt : N) (res : Response)   (* 'end' on the response, line 43 *)
| Reject (dt : N) (err : Thrown)      (* 'error' on the request, line 52 *)
| Pending.                            (* neither event ever comes *)

(** What a call of the handler does.  The handler is given the [context]
    object itself, which lines 121 and 138 read again after the call: a
    handler that assigns its fields before it settles is a [Reassign], with
    the fields as it left them (each a string or [undefined]).  [Hang] is a
    promise that never settles; [Block] is a call that never returns to the
    event loop, such as [while (true) {}], so that no timer can fire.  A
    call that settles after [dt] leaves the event loop free meanwhile. *)
Inductive HandlerReply :=
| Return (dt : N) (response : Value)
| Throw (dt : N) (ex : Thrown)
| Hang
| Block
| Reassign (context' : Context) (dt : N) (outcome : Value + Thrown).

(** An export of the loaded module.  The [n]-th call of an exported function
    may depend on [n] (handlers keep state) and on its two arguments. *)
Inductive Exported :=
| ExFalsy
| ExObject
| ExFunction (f : nat -> Value -> Context -> HandlerReply).

(** A module namespace: exported names in [Object.keys] order. *)
Definition Module := list (string * Exported).

(** ** Small pieces of JavaScript *)

(** [s.substring(1)]. *)
Definition substring1 (s : string) : string :=
  match s with
  | EmptyString => EmptyString
  | String _ rest => rest
  end.

(** [s.split] on the newline character: never empty, the empty string
    splits into one empty line. *)
Fixpoint split_lines (s : string) : list string :=
  match s with
  | EmptyString => [EmptyString]
  | String c rest =>
      if Ascii.eqb c "010"%char then EmptyString :: split_lines rest
      else match split_lines rest with
           | [] => [String c EmptyString]
           | l :: ls => String c l :: ls
           end
  end.

(** [`${x}`] for a string or [undefined]. *)
Definition template (x : option string) : string := default "undefined" x.

(** [xs.join(sep)]. *)
Definition join (sep : string) (xs : list string) : string := String.concat sep xs.

(** [mod[key]] on a module namespace ([undefined] when absent). *)
Fixpoint property (m : Module) (key : string) : option Exported :=
  match m with
  | [] => None
  | (k, v) :: rest => if String.eqb k key then Some v else property rest key
  end.

(** [Object.keys(mod)]. *)
Definition keys (m : Module) : list string := fst <$> m.

Definition dq : string := String "034"%char EmptyString.

(** The object literal of lines 78-82 and 126-130, for a thrown value whose
    [message] and [stack] are strings or [undefined]. *)
Definition error_object (message stack : option string) : Value :=
  VObj [("errorType", VStr "Error");
        ("errorMessage", from_option VStr VUndefined message);
        ("trace", from_option (fun st => VArr (VStr <$> split_lines st))
                              VUndefined stack)].

Record Platform := {
  path_parse : string -> ParsedPath;
  path_join : list string -> string;
  pathToFileURL : string -> string;             (* the [href] of the URL *)
  JSON_parse : string -> Thrown + Value;
  JSON_stringify : Value -> Thrown + option string;
  capture_stack : string -> string;             (* [stack] of [new Error(m)] *)
  invalid_path : string;   (* message of [url.pathToFileURL(undefined)] *)
  not_callable : string;   (* message of calling what is not a function *)
  not_splittable : string; (* message of [ex.stack.split(...)] without a [split] *)
  nullish_read : string    (* message of [ex.message] on null/undefined *)
}.

(** [JSON.stringify] turns an object of strings and arrays of strings into
    a text; a platform need not be told, the theorems that rely on it say so. *)
Definition serialises_reports (P : Platform) : Prop :=
  forall message stack,
    exists text, JSON_stringify P (error_object message stack) = inr (Some text).

Record Env := {
  existsSync : string -> bool;
  import : string -> Thrown + Module;
  endpoint : nat -> Request -> FetchReply   (* reply to the n-th [fetch] *)
}.

(** ** Observable events *)

Inductive Event :=
| EvClearTimeout
| EvSetTimeout (ms : N)
| EvRequest (target : string) (req : Request)
| EvResolved (req : Request) (res : Response)
| EvRejected (req : Request) (err : Thrown)
| EvInvoke (request : Value) (context : Context)
| EvAssigned (context : Context)   (* the handler left [context] with these fields *)
| EvReturned (response : Value)
| EvThrew (ex : Thrown)
| EvConsoleError (ex : Thrown)
| EvExit (code : Z).

(** ** Control states: the suspension points of the script *)

Inductive Pc :=
| AwaitInitError (req : Request)                                  (* line 72 *)
| AwaitPoll (req : Request)                                       (* line 101 *)
| AwaitHandler (request : Value) (context : Context)              (* line 118 *)
| AwaitErrorPost (req : Request) (context : Context)              (* line 120 *)
| AwaitResponsePost (req : Request) (response : Value) (context : Context)
                                                                  (* line 137 *)
| AwaitSleep (response : Value) (context : Context)               (* line 148 *)
| Exited (code : Z)                                   (* [process.exit(code)] *)
| Uncaught (ex : Thrown)     (* a rejection left the module's top level *)
| Blocked.                   (* awaiting for ever, no timer armed *)

(** The states of the specification's state machine. *)
Inductive RuntimeState := Initializing | AwaitingInvocation | Invoking | Responding.

Definition phase (p : Pc) : option RuntimeState :=
  match p with
  | AwaitInitError _ => Some Initializing
  | AwaitPoll _ => Some AwaitingInvocation
  | AwaitHandler _ _ => Some Invoking
  | AwaitErrorPost _ _ | AwaitResponsePost _ _ _ | AwaitSleep _ _ => Some Responding
  | Exited _ | Uncaught _ | Blocked => None
  end.

(** Exit status of the worker: the argument of [process.exit], or 1 when an
    exception is left uncaught (Node's status for a fatal exception). *)
Definition exit_status (p : Pc) : option Z :=
  match p with
  | Exited code => Some code
  | Uncaught _ => Some 1%Z
  | _ => None
  end.

Record State := {
  pc : Pc;
  now : N;                          (* logical clock, ms *)
  timeout : option N;               (* [timeout]: when the armed timer is due *)
  fn : Exported;                    (* [let fn: any] *)
  global_requestId : option string; (* the global of lines 114-115 *)
  fetches : nat;                    (* calls of [fetch] settled so far *)
  calls : nat                       (* calls of [fn] settled so far *)
}.

Definition goto (s : State) (p : Pc) : State :=
  {| pc := p; now := now s; timeout := timeout s; fn := fn s;
     global_requestId := global_requestId s;
     fetches := fetches s; calls := calls s |}.

Definition advance (s : State) (dt : N) : State :=
  {| pc := pc s; now := (now s + dt)%N; timeout := timeout s; fn := fn s;
     global_requestId := global_requestId s;
     fetches := fetches s; calls := calls s |}.

Definition arm (s : State) (ms : N) : State :=
  {| pc := pc s; now := now s; timeout := Some (now s + ms)%N; fn := fn s;
     global_requestId := global_requestId s;
     fetches := fetches s; calls := calls s |}.

Definition set_global (s : State) (rid : option string) : State :=
  {| pc := pc s; now := now s; timeout := timeout s; fn := fn s;
     global_requestId := rid;
     fetches := fetches s; calls := calls s |}.

Definition count_fetch (s : State) : State :=
  {| pc := pc s; now := now s; timeout := timeout s; fn := fn s;
     global_requestId := global_requestId s;
     fetches := S (fetches s); calls := calls s |}.

Definition count_call (s : State) : State :=
  {| pc := pc s; now := now s; timeout := timeout s; fn := fn s;
     global_requestId := global_requestId s;
     fetches := fetches s; calls := S (calls s) |}.

(** ** The script *)

Section Runtime.

Context (P : Platform) (E : Env) (input : Input).

(** *** Handler resolution (lines 9-15, 59-69) *)

Definition extensions : list string := [".js"; ".jsx"; ".mjs"; ".cjs"].

Definition parsed : ParsedPath := path_parse P (handler input).

Definition candidates : list string :=
  (fun ext => path_join P [out input; dir parsed; name parsed +:+ ext])
    <$> extensions.

(** [file]: [Array.prototype.find] gives the first match or [undefined]. *)
Definition file : option string := List.find (existsSync E) candidates.

(** [new Error(message)]. *)
Definition new_Error (message : string) : Thrown :=
  ThrownObj (Some message) (Some (capture_stack P message)).

(** The message of lines 65-67. *)
Definition not_found_message (h : string) (m : Module) : string :=
  "Function " +:+ dq +:+ h +:+ dq +:+ " not found in " +:+ dq
    +:+ handler input +:+ dq +:+ ". Found " +:+ join ", " (keys m).

(** The [try] block of lines 59-69: the handler, or what it throws. *)
Definition load : Thrown + Exported :=
  match file with
  | None => inl (new_Error (invalid_path P))
  | Some f =>
      match import E (pathToFileURL P f) with
      | inl ex => inl ex
      | inr m =>
          let h := substring1 (ext parsed) in
          match property m h with
          | Some ExFalsy | None => inl (new_Error (not_found_message h m))
          | Some f => inr f
          end
      end
  end.

(** *** The local [fetch] and the two kinds of report *)

(** [fetch(req)] up to its [await]: the request goes out to
    [input.url + req.path]; the continuation waits in [k req]. *)
Definition fetch (s : State) (req : Request) (k : Request -> Pc)
  : State * list Event :=
  (goto s (k req), [EvRequest (url input +:+ req_path req) req]).

(** What line 53 writes on the wire: nothing for a falsy body. *)
Definition written (req : Request) : option string :=
  match req_body req with
  | Some (String c rest) => Some (String c rest)
  | _ => None
  end.

Definition json_headers : list (string * string) :=
  [("Content-Type", "application/json")].

(** The argument of [JSON.stringify] at lines 78 and 126, or the TypeError
    that building it throws: [ex.message] on a nullish [ex], or the call of
    a [split] that is not there. *)
Definition error_payload (ex : Thrown) : Thrown + Value :=
  match ex with
  | ThrownNullish => inl (new_Error (nullish_read P))
  | ThrownObj message stack => inr (error_object message stack)
  | ThrownOddStack _ => inl (new_Error (not_splittable P))
  end.

Definition post (path : string) (text : option string) : Request :=
  {| req_path := path; req_method := "POST";
     req_headers := json_headers; req_body := text |}.

(** The body of both [catch (ex: any)] blocks up to the [await]: whatever
    is thrown there leaves the module. *)
Definition report (s : State) (path : string) (ex : Thrown) (k : Request -> Pc)
  : State * list Event :=
  match error_payload ex with
  | inl ex' => (goto s (Uncaught ex'), [])
  | inr payload =>
      match JSON_stringify P payload with
      | inl ex' => (goto s (Uncaught ex'), [])
      | inr text => fetch s (post path text) k
      end
  end.

(** *** The watchdog *)

Definition WATCHDOG_MS : N := 1000 * 60 * 15.

(** The callback of lines 90-92. *)
Definition watchdog (s : State) (due : N) : State * list Event :=
  ({| pc := Exited 0; now := due; timeout := timeout s; fn := fn s;
      global_requestId := global_requestId s;
      fetches := fetches s; calls := calls s |}, [EvExit 0]).

(** [await p] where [p] settles after [delay] ms ([None]: never).  The
    armed timer runs whenever the script is suspended, so it wins when it
    is due no later than [p] settles. *)
Definition await (s : State) (delay : option N)
    (k : State -> State * list Event) : State * list Event :=
  match timeout s, delay with
  | Some due, None => watchdog s due
  | Some due, Some dt =>
      if (due <=? now s + dt)%N then watchdog s due else k (advance s dt)
  | None, Some dt => k (advance s dt)
  | None, None => (goto s Blocked, [])
  end.

Definition emit (evs : list Event) (r : State * list Event)
  : State * list Event :=
  (r.1, evs ++ r.2).

(** [await fetch(req)]: the [n]-th request is answered by the endpoint. *)
Definition await_fetch (s : State) (req : Request)
    (resolved : State -> Response -> State * list Event)
    (rejected : State -> Thrown -> State * list Event)
  : State * list Event :=
  let s' := count_fetch s in
  match endpoint E (fetches s) req with
  | Resolve dt res =>
      await s' (Some dt) (fun s1 => emit [EvResolved req res] (resolved s1 res))
  | Reject dt err =>
      await s' (Some dt) (fun s1 => emit [EvRejected req err] (rejected s1 err))
  | Pending => await s' None (fun s1 => (s1, []))
  end.

(** [fn(request, context)]. *)
Definition call (f : Exported) (n : nat) (request : Value) (context : Context)
  : HandlerReply :=
  match f with
  | ExFunction g => g n request context
  | _ => Throw 0 (new_Error (not_callable P))
  end.

(** *** The invocation loop (lines 88-151) *)

Definition poll_request : Request :=
  {| req_path := "/runtime/invocation/next"; req_method := "GET";
     req_headers := []; req_body := None |}.

Definition error_path (context : Context) : string :=
  "/runtime/invocation/" +:+ template (awsRequestId context) +:+ "/error".

Definition response_path (context : Context) : string :=
  "/runtime/invocation/" +:+ template (awsRequestId context) +:+ "/response".

(** Top of the outer [while (true)], lines 89-105, up to the poll. *)
Definition iterate (s : State) : State * list Event :=
  let cleared := match timeout s with
                 | Some _ => [EvClearTimeout]
                 | None => []
                 end in
  emit (cleared ++ [EvSetTimeout WATCHDOG_MS])
       (fetch (arm s WATCHDOG_MS) poll_request AwaitPoll).

(** The [catch] of lines 146-149, up to its [await]. *)
Definition retry_later (s : State) (ex : Thrown) (response : Value)
    (context : Context) : State * list Event :=
  (goto s (AwaitSleep response context), [EvConsoleError ex; EvSetTimeout 500]).

(** One round of the inner [while (true)], lines 136-145, up to its
    [await]: [JSON.stringify] is inside the [try]. *)
Definition deliver (s : State) (response : Value) (context : Context)
  : State * list Event :=
  match JSON_stringify P response with
  | inr text =>
      fetch s (post (response_path context) text)
            (fun req => AwaitResponsePost req response context)
  | inl ex => retry_later s ex response context
  end.

(** Lines 106-118 after a resolved poll. *)
Definition polled (s : State) (result : Response) : State * list Event :=
  let context :=
    {| awsRequestId := headers result !! "lambda-runtime-aws-request-id";
       invokedFunctionArn := headers result !! "lambda-runtime-invoked-function-arn" |} in
  match JSON_parse P (body result) with
  | inl _ => iterate s                                   (* line 112 *)
  | inr request =>
      (goto (set_global s (awsRequestId context)) (AwaitHandler request context),
       [EvInvoke request context])
  end.

(** Lines 119-144 after the handler settled, with [context] as the call
    left it. *)
Definition settled (s : State) (context : Context) (outcome : Value + Thrown)
  : State * list Event :=
  match outcome with
  | inl response => emit [EvReturned response] (deliver s response context)
  | inr ex =>
      emit [EvThrew ex]
           (report s (error_path context) ex
                   (fun req => AwaitErrorPost req context))
  end.

(** One transition: the pending promise settles and the script runs to its
    next [await].  While the handler blocks the event loop the script stays
    where it is. *)
Definition step (s : State) : State * list Event :=
  match pc s with
  | AwaitInitError req =>
      await_fetch s req
        (fun s1 _ => (goto s1 (Exited 1), [EvExit 1]))            (* line 84 *)
        (fun s1 err => (goto s1 (Uncaught err), []))
  | AwaitPoll req =>
      await_fetch s req polled (fun s1 _ => iterate s1)          (* line 112 *)
  | AwaitHandler request context =>
      let s' := count_call s in
      match call (fn s) (calls s) request context with
      | Return dt response =>
          await s' (Some dt) (fun s1 =>
            emit [EvReturned response] (deliver s1 response context))
      | Throw dt ex =>
          await s' (Some dt) (fun s1 =>
            emit [EvThrew ex]
                 (report s1 (error_path context) ex
                         (fun req => AwaitErrorPost req context)))
      | Hang => await s' None (fun s1 => (s1, []))
      | Block => (s, [])
      | Reassign context' dt outcome =>
          await s' (Some dt) (fun s1 =>
            emit [EvAssigned context'] (settled s1 context' outcome))
      end
  | AwaitErrorPost req context =>
      await_fetch s req
        (fun s1 _ => iterate s1)                                 (* line 132 *)
        (fun s1 err => (goto s1 (Uncaught err), []))
  | AwaitResponsePost req response context =>
      await_fetch s req
        (fun s1 _ => iterate s1)                                 (* line 145 *)
        (fun s1 err => retry_later s1 err response context)
  | AwaitSleep response context =>
      await s (Some 500%N) (fun s1 => deliver s1 response context)
  | Exited _ | Uncaught _ | Blocked => (s, [])
  end.

Fixpoint run (fuel : nat) (s : State) : State * list Event :=
  match fuel with
  | O => (s, [])
  | S n => let r := step s in emit r.2 (run n r.1)
  end.

(** The state at line 58, before the first [await]; [f] is the value [fn]
    has when the [try] block is left. *)
Definition boot (f : Exported) : State :=
  {| pc := Blocked; now := 0; timeout := None; fn := f;
     global_requestId := None; fetches := 0; calls := 0 |}.

(** Lines 58-105: resolve the handler, then report and leave, or enter the
    loop. *)
Definition start : State * list Event :=
  match load with
  | inl ex => report (boot ExFalsy) "/runtime/init/error" ex AwaitInitError
  | inr f => iterate (boot f)
  end.

(** The script after [fuel] settled promises. *)
Definition exec (fuel : nat) : State * list Event :=
  emit start.2 (run fuel start.1).

End Runtime.

(** ** A concrete platform and world, for running the script *)

Module Demo.

(** Split at the last occurrence of [c]. *)
Fixpoint rsplit (c : ascii) (s : string) : option (string * string) :=
  match s with
  | EmptyString => None
  | String a rest =>
      match rsplit c rest with
      | Some (l, r) => Some (String a l, r)
      | None => if Ascii.eqb a c then Some (EmptyString, rest) else None
      end
  end.

(** [path.posix.parse] on relative paths [a/b/base] whose base is neither
    empty nor [..]. *)
Definition parse (p : string) : ParsedPath :=
  let '(d, b) := match rsplit "/"%char p with
                 | Some (d, b) => (d, b)
                 | None => (EmptyString, p)
                 end in
  match rsplit "."%char b with
  | Some (String c n, e) =>
      {| dir := d; name := String c n; ext := String "."%char e |}
  | _ => {| dir := d; name := b; ext := EmptyString |}
  end.

(** [path.posix.join] on segments that need no normalising: empty
    segments are skipped, the others are joined by [/]. *)
Definition join_path (segments : list string) : string :=
  join "/" (List.filter (fun seg => negb (String.eqb seg "")) segments).

Definition syntax_error : Thrown :=
  ThrownObj (Some "Unexpected token") (Some "SyntaxError: Unexpected token").

(** [JSON.parse] on the texts used below; every other text used below is
    not JSON. *)
Definition parse_json (text : string) : Thrown + Value :=
  if String.eqb text "null" then inr VNull
  else if String.eqb text "true" then inr (VBool true)
  else if String.eqb text "1" then inr (VNum 1)
  else if String.eqb text "{}" then inr (VObj [])
  else inl syntax_error.

Definition quote (s : string) : string := dq +:+ s +:+ dq.

(** [JSON.stringify] on values whose strings need no escaping; it throws
    on [VOpaque], as it does on a BigInt or a cyclic object. *)
Fixpoint stringify (v : Value) : option (option string) :=
  match v with
  | VUndefined => Some None
  | VNull => Some (Some "null")
  | VBool true => Some (Some "true")
  | VBool false => Some (Some "false")
  | VNum n => Some (Some (pretty n))
  | VStr s => Some (Some (quote s))
  | VArr items =>
      let fix go (xs : list Value) : option (list string) :=
        match xs with
        | [] => Some []
        | x :: rest =>
            match stringify x, go rest with
            | Some o, Some l => Some (default "null" o :: l)
            | _, _ => None
            end
        end in
      match go items with
      | Some l => Some (Some ("[" +:+ join "," l +:+ "]"))
      | None => None
      end
  | VObj fields =>
      let fix go (xs : list (string * Value)) : option (list string) :=
        match xs with
        | [] => Some []
        | (k, x) :: rest =>
            match stringify x, go rest with
            | Some (Some t), Some l => Some ((quote k +:+ ":" +:+ t) :: l)
            | Some None, Some l => Some l
            | _, _ => None
            end
        end in
      match go fields with
      | Some l => Some (Some ("{" +:+ join "," l +:+ "}"))
      | None => None
      end
  | VOpaque _ => None
  end.

Definition serialize (v : Value) : Thrown + option string :=
  match stringify v with
  | Some o => inr o
  | None => inl (ThrownObj (Some "Do not know how to serialize")
                           (Some "TypeError: Do not know how to serialize"))
  end.

Definition platform : Platform :=
  {| path_parse := parse;
     path_join := join_path;
     pathToFileURL := fun f => "file://" +:+ f;
     JSON_parse := parse_json;
     JSON_stringify := serialize;
     capture_stack := fun m => "Error: " +:+ m;
     invalid_path := "The path argument must be of type string";
     not_callable := "fn is not a function";
     not_splittable := "ex.stack?.split is not a function";
     nullish_read := "Cannot read properties of null" |}.

(** The example of the specification: [/build/api/hello.js] exports
    [handler]. *)
Definition hello : Input :=
  {| handler := "api/hello.handler"; out := "/build"; url := "http://127.0.0.1:12557" |}.

Definition ok (b : string) : Response :=
  {| statusCode := 200; headers := ∅; body := b |}.

Definition invocation (rid b : string) : Response :=
  {| statusCode := 200;
     headers := {[ "lambda-runtime-aws-request-id" := rid;
                   "lambda-runtime-invoked-function-arn" := "arn:aws:lambda:local" ]};
     body := b |}.

(** A world in which only [/build/api/hello.js] exists and exports
    [handler := f]. *)
Definition world (f : Exported) (control : nat -> Request -> FetchReply) : Env :=
  {| existsSync := fun p => String.eqb p "/build/api/hello.js";
     import := fun href =>
       if String.eqb href "file:///build/api/hello.js"
       then inr [("handler", f)]
       else inl (ThrownObj (Some "Cannot find module") None);
     endpoint := control |}.

End Demo.


(** ** Reading a trace *)

Definition trace (r : State * list Event) : list Event := r.2.

(** The requests that went out, in order. *)
Definition requests (tr : list Event) : list Request :=
  omap (fun e => match e with EvRequest _ req => Some req | _ => None end) tr.


Definition is_poll (req : Request) : bool :=
  String.eqb (req_method req) "GET"
  && String.eqb (req_path req) "/runtime/invocation/next".

Definition is_post (req : Request) : bool := String.eqb (req_method req) "POST".

(** A terminal delivery, as the endpoint sees it: a POST under
    [/runtime/invocation/]. *)
Definition is_delivery (req : Request) : bool :=
  is_post req && String.prefix "/runtime/invocation/" (req_path req).

(** A monitor reads a trace event by event: [check] may refuse an event in
    the current monitor state, [next] moves on. *)
Section Monitor.

Context {M : Type} (check : M -> Event -> bool) (next : M -> Event -> M).

Fixpoint accepts (m : M) (tr : list Event) : bool :=
  match tr with
  | [] => true
  | e :: rest => check m e && accepts (next m e) rest
  end.

Definition after (m : M) (tr : list Event) : M := fold_left next tr m.

End Monitor.

(** The control endpoint instrumented to assert a single invocation in
    flight.  The endpoint hands an invocation out when it answers a poll,
    if the answer [counts], and has it back when it answers a terminal
    delivery; meanwhile no poll may arrive.  The handler may be called once,
    for an invocation handed out. *)
Inductive Flight :=
| NoFlight
| HandedOut
| Handling.

Definition in_flight_check (m : Flight) (e : Event) : bool :=
  match e with
  | EvRequest _ req =>
      if is_poll req then match m with NoFlight => true | _ => false end
      else true
  | EvInvoke _ _ => match m with HandedOut => true | _ => false end
  | _ => true
  end.

Definition in_flight_next (counts : Response -> bool) (m : Flight) (e : Event)
  : Flight :=
  match e with
  | EvResolved req result =>
      if is_poll req then (if counts result then HandedOut else NoFlight)
      else if is_delivery req then NoFlight
      else m
  | EvInvoke _ _ => Handling
  | _ => m
  end.

Definition single_in_flight (counts : Response -> bool) (tr : list Event) : bool :=
  accepts in_flight_check (in_flight_next counts) NoFlight tr.


(** Request-id threading.  The request id of an invocation is the value
    of the [lambda-runtime-aws-request-id] header of the answer to its poll;
    in a path it stands unchanged, and as the text [undefined] when the
    header is missing.  Every POST under [/runtime/invocation/] must go to
    the error or the response path of the current request id.  With
    [follow], an assignment of the handler to [context.awsRequestId] makes
    the assigned value the current request id; without, the request id
    stays that of the header. *)
Definition id_text (rid : option string) : string :=
  match rid with
  | Some text => text
  | None => "undefined"
  end.

Definition threaded_check (current : option (option string)) (e : Event) : bool :=
  match e with
  | EvRequest _ req =>
      if is_delivery req
      then match current with
           | Some rid =>
               String.eqb (req_path req)
                 ("/runtime/invocation/" +:+ id_text rid +:+ "/error")
               || String.eqb (req_path req)
                    ("/runtime/invocation/" +:+ id_text rid +:+ "/response")
           | None => false
           end
      else true
  | _ => true
  end.

Definition threaded_next (follow : bool) (current : option (option string))
    (e : Event) : option (option string) :=
  match e with
  | EvResolved req result =>
      if is_poll req then Some (headers result !! "lambda-runtime-aws-request-id")
      else current
  | EvAssigned context => if follow then Some (awsRequestId context) else current
  | _ => current
  end.

(** The claim as it is written: the id in the path is that of the header. *)
Definition header_threaded (tr : list Event) : bool :=
  accepts threaded_check (threaded_next false) None tr.

(** The same, with the handler's assignments followed. *)
Definition threaded (tr : list Event) : bool :=
  accepts threaded_check (threaded_next true) None tr.

(** What the handler assigned to its context, in order. *)
Definition assignments (tr : list Event) : list Context :=
  omap (fun e => match e with EvAssigned c => Some c | _ => None end) tr.

(** ** Well-formed states: what holds at every suspension point *)

(** The watchdog is armed, not yet due, and was armed in the past. *)
Definition armed (s : State) : Prop :=
  exists due, timeout s = Some due /\ (now s < due <= now s + WATCHDOG_MS)%N.

Definition wf (P : Platform) (s : State) : Prop :=
  match pc s with
  | AwaitInitError req =>
      timeout s = None /\ exists text, req = post "/runtime/init/error" text
  | AwaitPoll req =>
      req = poll_request /\ timeout s = Some (now s + WATCHDOG_MS)%N
  | AwaitHandler _ _ | AwaitSleep _ _ => armed s
  | AwaitErrorPost req context =>
      armed s /\ exists text, req = post (error_path context) text
  | AwaitResponsePost req response context =>
      armed s /\ exists text, JSON_stringify P response = inr text
                            /\ req = post (response_path context) text
  | Exited _ | Uncaught _ | Blocked => True
  end.

(** ** What the monitors know at each suspension point *)


(** While an invocation is being handled, the current request id is the
    one its context holds. *)
Definition knows (m : option (option string)) (c : Context) : Prop :=
  m = Some (awsRequestId c).

Definition threaded_at (m : option (option string)) (s : State) : Prop :=
  match pc s with
  | AwaitHandler _ c | AwaitErrorPost _ c
  | AwaitResponsePost _ _ c | AwaitSleep _ c => knows m c
  | _ => True
  end.

(** The three ways an [await] ends. *)

Inductive Awaited (s : State) (delay : option N)
    (k : State -> State * list Event) : State * list Event -> Prop :=
| Awaited_fired due :
    timeout s = Some due ->
    (forall dt, delay = Some dt -> (due <= now s + dt)%N) ->
    Awaited s delay k (watchdog s due)
| Awaited_resumed dt :
    delay = Some dt ->
    (forall due, timeout s = Some due -> (now s + dt < due)%N) ->
    Awaited s delay k (k (advance s dt))
| Awaited_blocked :
    timeout s = None -> delay = None ->
    Awaited s delay k (goto s Blocked, []).

(** ** Vocabulary of the statements *)

(** The handler calls, in order. *)
Definition invocations (tr : list Event) : list (Value * Context) :=
  omap (fun e => match e with EvInvoke request c => Some (request, c) | _ => None end) tr.

Section Vocabulary.

Context (P : Platform) (E : Env) (input : Input).


(** After how long the promise awaited in [s] settles; [None]: never. *)
Definition awaited_delay (s : State) : option N :=
  match pc s with
  | AwaitInitError req | AwaitPoll req
  | AwaitErrorPost req _ | AwaitResponsePost req _ _ =>
      match endpoint E (fetches s) req with
      | Resolve dt _ | Reject dt _ => Some dt
      | Pending => None
      end
  | AwaitHandler request c =>
      match call P (fn s) (calls s) request c with
      | Return dt _ | Throw dt _ | Reassign _ dt _ => Some dt
      | Hang | Block => None
      end
  | AwaitSleep _ _ => Some 500%N
  | Exited _ | Uncaught _ | Blocked => None
  end.

(** The handler called in [s] never returns to the event loop. *)
Definition blocking (s : State) : bool :=
  match pc s with
  | AwaitHandler request c =>
      match call P (fn s) (calls s) request c with
      | Block => true
      | _ => false
      end
  | _ => false
  end.

(** The words of the resolution algorithm, written out: the four probes
    in their order, the export name after the first character of the
    extension, the names joined by a comma and a space, and the text between
    double quotes. *)
Definition probes : list string :=
  let p := path_parse P (handler input) in
  [path_join P [out input; dir p; name p +:+ ".js"];
   path_join P [out input; dir p; name p +:+ ".jsx"];
   path_join P [out input; dir p; name p +:+ ".mjs"];
   path_join P [out input; dir p; name p +:+ ".cjs"]].

Definition export_named (h : string) : Prop :=
  match ext (path_parse P (handler input)) with
  | EmptyString => h = EmptyString
  | String _ rest => h = rest
  end.




(** [f] is the first probe that exists. *)
Definition first_existing (f : string) : Prop :=
  exists i,
    probes !! i = Some f /\ existsSync E f = true
    /\ forall j g, j < i -> probes !! j = Some g -> existsSync E g = false.

(** The three startup failures: no probe exists, the loader throws an
    error object, the module lacks the export. *)
Definition startup_fails : Prop :=
  (forall g, g ∈ probes -> existsSync E g = false)
  \/ (exists f message stack,
        first_existing f
        /\ import E (pathToFileURL P f) = inl (ThrownObj message stack))
  \/ (exists f m h,
        first_existing f
        /\ import E (pathToFileURL P f) = inr m
        /\ export_named h /\ h ∉ m.*1).




End Vocabulary.

(** ** Worlds used as examples *)

Module Worlds.

Import Demo.

Definition ok_value : Value := VObj [("ok", VBool true)].

(** The JSON text of [ok_value]. *)
Definition ok_text : string := "{" +:+ dq +:+ "ok" +:+ dq +:+ ":true}".

Definition abc1 : Context :=
  {| awsRequestId := Some "abc-1";
     invokedFunctionArn := Some "arn:aws:lambda:local" |}.

Definition returns_ok : Exported := ExFunction (fun _ _ _ => Return 5 ok_value).

Definition boom : Thrown := ThrownObj (Some "boom") (Some "Error: boom").

Definition reset : Thrown :=
  ThrownObj (Some "read ECONNRESET") (Some "Error: read ECONNRESET").

(** The endpoint hands out [abc-1] and answers every POST. *)
Definition friendly : Env :=
  world returns_ok (fun n _ =>
    match n with
    | 0 => Resolve 10 (invocation "abc-1" "{}")
    | 1 => Resolve 3 (ok "")
    | _ => Pending
    end).

(** The handler never settles. *)
Definition hanging : Env :=
  world (ExFunction (fun _ _ _ => Hang))
        (fun _ _ => Resolve 10 (invocation "abc-1" "{}")).

(** The endpoint is down: every request fails after ten minutes. *)
Definition unreachable : Env :=
  world returns_ok (fun _ _ => Reject 600000 reset).



(** The handler throws and the error POST fails. *)
Definition unlucky : Env :=
  world (ExFunction (fun _ _ _ => Throw 5 boom))
        (fun n _ =>
           match n with
           | 0 => Resolve 10 (invocation "abc-1" "{}")
           | 1 => Reject 3 reset
           | _ => Resolve 10 (invocation "abc-2" "{}")
           end).

(** The poll is answered with the JSON text [1]. *)
Definition one : Env :=
  world returns_ok (fun _ _ => Resolve 10 (invocation "abc-1" "1")).

(** The first poll is answered with a body that is not JSON. *)
Definition garbled : Env :=
  world returns_ok (fun n _ =>
    match n with
    | 0 => Resolve 10 (invocation "abc-1" "oops")
    | _ => Pending
    end).

(** No candidate file exists. *)
Definition empty_disk : Env :=
  {| existsSync := fun _ => false;
     import := fun _ => inl (ThrownObj (Some "Cannot find module") None);
     endpoint := fun _ _ => Resolve 2 (ok "") |}.


End Worlds.

(** ** Further monitors *)

#[global] Instance Request_eq_dec : EqDecision Request.
Proof. solve_decision. Defined.

(** One request at a time: [fetch] is called, and the handler is called,
    only while no request is outstanding; what settles is the outstanding
    request. *)
Definition outstanding_check (m : option Request) (e : Event) : bool :=
  match e with
  | EvRequest _ _ | EvInvoke _ _ | EvReturned _ | EvThrew _ => bool_decide (m = None)
  | EvResolved req _ | EvRejected req _ => bool_decide (m = Some req)
  | _ => true
  end.

Definition outstanding_next (m : option Request) (e : Event) : option Request :=
  match e with
  | EvRequest _ req => Some req
  | EvResolved _ _ | EvRejected _ _ => None
  | _ => m
  end.

Definition one_at_a_time (tr : list Event) : bool :=
  accepts outstanding_check outstanding_next None tr.


(** One watchdog at a time: the timer of [WATCHDOG_MS] is set only while
    none is armed, and [clearTimeout] is called only on an armed one. *)
Definition timer_check (armed_now : bool) (e : Event) : bool :=
  match e with
  | EvSetTimeout ms => if (ms =? WATCHDOG_MS)%N then negb armed_now else true
  | EvClearTimeout => armed_now
  | _ => true
  end.

Definition timer_next (armed_now : bool) (e : Event) : bool :=
  match e with
  | EvSetTimeout ms => if (ms =? WATCHDOG_MS)%N then true else armed_now
  | EvClearTimeout => false
  | _ => armed_now
  end.

Definition one_watchdog (tr : list Event) : bool :=
  accepts timer_check timer_next false tr.

Definition timer_at (armed_now : bool) (s : State) : Prop :=
  armed_now = bool_decide (is_Some (timeout s)).

(** The channel of an invocation: nothing is sent while the handler runs;
    after a throw at most one POST, to the error path; after a return only
    POSTs to the response path; a poll only when no invocation is open.
    The paths are those of the context of the call, as the handler left
    it. *)
Inductive Channel :=
| Idle
| Called (c : Context)
| Threw (c : Context)
| Reported (c : Context)
| Returned (c : Context).

Definition channel_check (m : Channel) (e : Event) : bool :=
  match e, m with
  | EvInvoke _ _, Idle => true
  | EvInvoke _ _, _ => false
  | EvAssigned _, Called _ => true
  | EvAssigned _, _ => false
  | EvThrew _, Called _ => true
  | EvThrew _, _ => false
  | EvReturned _, Called _ => true
  | EvReturned _, _ => false
  | EvRequest _ req, Idle =>
      is_poll req || (is_post req && String.eqb (req_path req) "/runtime/init/error")
  | EvRequest _ req, Threw c =>
      is_post req && String.eqb (req_path req) (error_path c)
  | EvRequest _ req, Returned c =>
      is_post req && String.eqb (req_path req) (response_path c)
  | EvRequest _ _, (Called _ | Reported _) => false
  | _, _ => true
  end.

Definition channel_next (m : Channel) (e : Event) : Channel :=
  match e, m with
  | EvInvoke _ c, _ => Called c
  | EvAssigned c, Called _ => Called c
  | EvThrew _, Called c => Threw c
  | EvReturned _, Called c => Returned c
  | EvRequest _ _, Threw c => Reported c
  | EvResolved _ _, (Reported _ | Returned _) => Idle
  | _, _ => m
  end.

Definition one_channel (tr : list Event) : bool :=
  accepts channel_check channel_next Idle tr.




(** The request id of the latest handler call, [d] when there was none. *)
Definition latest_request_id (d : option string) (tr : list Event) : option string :=
  match last (invocations tr) with
  | Some (_, c) => awsRequestId c
  | None => d
  end.

(** ** The two modes of the script *)

(** Startup failed: no timer is ever armed and [fn] stays undefined. *)
Definition init_mode (s : State) : Prop :=
  timeout s = None /\ fn s = ExFalsy
  /\ match pc s with
     | AwaitInitError _ | Uncaught _ | Blocked => True
     | Exited code => code = 1%Z
     | _ => False
     end.

(** The loop was entered with the handler [f]: the timer is armed and [fn]
    stays [f]. *)
Definition loop_mode (f : Exported) (s : State) : Prop :=
  is_Some (timeout s) /\ fn s = f
  /\ match pc s with
     | AwaitPoll _ | AwaitHandler _ _ | AwaitErrorPost _ _
     | AwaitResponsePost _ _ _ | AwaitSleep _ _ | Uncaught _ => True
     | Exited code => code = 0%Z
     | _ => False
     end.

Definition mode (loaded : Thrown + Exported) (s : State) : Prop :=
  match loaded with
  | inl _ => init_mode s
  | inr f => loop_mode f s
  end.

(** ** Status codes *)

(** The same world, with every status code replaced by [code]. *)
Definition restatus (code : Z) (E : Env) : Env :=
  {| existsSync := existsSync E;
     import := import E;
     endpoint := fun n req =>
       match endpoint E n req with
       | Resolve dt res =>
           Resolve dt {| statusCode := code; headers := headers res; body := body res |}
       | reply => reply
       end |}.

(** What one more round of the retry loop logs when [JSON.stringify]
    throws. *)
Definition logged (ex : Thrown) : list Event := [EvConsoleError ex; EvSetTimeout 500].

(** ** More worlds *)

Module Cases.

Import Demo.

(** The handler throws [null]. *)
Definition throws_null : Env :=
  world (ExFunction (fun _ _ _ => Throw 5 ThrownNullish))
        (fun _ _ => Resolve 10 (invocation "abc-1" "{}")).

(** The export named [handler] is an object, not a function. *)
Definition not_a_function : Env :=
  world ExObject (fun n _ =>
    match n with
    | 0 => Resolve 10 (invocation "abc-1" "{}")
    | _ => Resolve 3 (ok "")
    end).

(** The export named [handler] is [null]. *)
Definition null_export : Env := world ExFalsy (fun _ _ => Resolve 2 (ok "")).

(** The handler returns, after 899 s, what [JSON.stringify] throws on. *)
Definition cyclic : Env :=
  world (ExFunction (fun _ _ _ => Return 899000 (VOpaque 0)))
        (fun _ _ => Resolve 0 (invocation "abc-1" "{}")).

(** The handler returns [undefined]. *)
Definition returns_undefined : Env :=
  world (ExFunction (fun _ _ _ => Return 5 VUndefined))
        (fun n _ =>
           match n with
           | 0 => Resolve 10 (invocation "abc-1" "{}")
           | _ => Resolve 3 (ok "")
           end).

(** The handler throws and the error POST is answered. *)
Definition throws : Env :=
  world (ExFunction (fun _ _ _ => Throw 5 Worlds.boom))
        (fun n _ =>
           match n with
           | 0 => Resolve 10 (invocation "abc-1" "{}")
           | _ => Resolve 3 (ok "")
           end).

(** The handler never returns to the event loop. *)
Definition busy : Env :=
  world (ExFunction (fun _ _ _ => Block))
        (fun _ _ => Resolve 10 (invocation "abc-1" "{}")).

(** The handler assigns [other] to [context.awsRequestId], then returns. *)
Definition meddling : Env :=
  world (ExFunction (fun _ _ c =>
           Reassign {| awsRequestId := Some "other";
                       invokedFunctionArn := invokedFunctionArn c |}
                    5 (inl Worlds.ok_value)))
        (fun n _ =>
           match n with
           | 0 => Resolve 10 (invocation "abc-1" "{}")
           | _ => Resolve 3 (ok "")
           end).

(** The module throws, while it is loaded, an object whose [stack] is a
    number. *)
Definition odd : Env :=
  {| existsSync := fun p => String.eqb p "/build/api/hello.js";
     import := fun _ => inl (ThrownOddStack (Some "odd"));
     endpoint := fun _ _ => Resolve 2 (ok "") |}.

(** The module throws [null] while it is loaded. *)
Definition poisoned : Env :=
  {| existsSync := fun p => String.eqb p "/build/api/hello.js";
     import := fun _ => inl ThrownNullish;
     endpoint := fun _ _ => Resolve 2 (ok "") |}.

End Cases.

(** * The construct ids of an app: [ensureUniqueConstructIds]

    The aspect of [App.ensureUniqueConstructIds] keeps a registry [ids],
    one plain object per class name, each mapping a normalised id to the id
    that claimed it.  A plain object also answers for the members of
    [Object.prototype]; the registry is embedded as a [gmap] with that
    fallback written out. *)

Module UniqueIds.

(** What [visit] reads of a construct. *)
Record Construct := {
  isSSTConstruct : bool;
  isFunction : bool;                 (* [c instanceof Function] *)
  doNotAllowOthersToBind : bool;     (* [c._doNotAllowOthersToBind] *)
  className : string;                (* [c.constructor.name] *)
  id : string
}.

Definition is_letter (c : ascii) : bool :=
  let n := N_of_ascii c in
  ((65 <=? n) && (n <=? 90) || (97 <=? n) && (n <=? 122))%N.

Definition is_digit (c : ascii) : bool :=
  let n := N_of_ascii c in ((48 <=? n) && (n <=? 57))%N.

(** The class [[a-zA-Z0-9-_]]. *)
Definition is_id_char (c : ascii) : bool :=
  is_letter c || is_digit c || Ascii.eqb c "-" || Ascii.eqb c "_".

Fixpoint all_chars (p : ascii -> bool) (s : string) : bool :=
  match s with
  | EmptyString => true
  | String c rest => p c && all_chars p rest
  end.

(** [id.match(/^[a-zA-Z]([a-zA-Z0-9-_])*$/)]. *)
Definition valid_id (i : string) : bool :=
  match i with
  | EmptyString => false
  | String c rest => is_letter c && all_chars is_id_char rest
  end.

(** [id.replace(/-/g, "_")]. *)
Fixpoint normalize (i : string) : string :=
  match i with
  | EmptyString => EmptyString
  | String c rest =>
      String (if Ascii.eqb c "-" then "_"%char else c) (normalize rest)
  end.

(** The property names of [Object.prototype]. *)
Definition object_prototype : list string :=
  ["constructor"; "__defineGetter__"; "__defineSetter__"; "hasOwnProperty";
   "__lookupGetter__"; "__lookupSetter__"; "isPrototypeOf";
   "propertyIsEnumerable"; "toString"; "valueOf"; "__proto__";
   "toLocaleString"].

(** What [o[key]] finds on a plain object of strings: an own string or a
    member of [Object.prototype]. *)
Inductive Found :=
| Own (v : string)
| Builtin (key : string).

Definition read (o : gmap string string) (key : string) : option Found :=
  match o !! key with
  | Some v => Some (Own v)
  | None =>
      if bool_decide (key ∈ object_prototype) then Some (Builtin key) else None
  end.

Definition truthy (f : option Found) : bool :=
  match f with
  | Some (Own EmptyString) | None => false
  | Some _ => true
  end.

(** [a || b]. *)
Definition or_else (a b : option Found) : option Found :=
  if truthy a then a else b.

(** The errors of lines 561-606, by the branch that throws them, with the
    values their messages interpolate. *)
Inductive Rejection :=
| InvalidId (i cls : string)
| ConfigExists (i : string)
| ConfigClash (existing : Found) (i : string)
| AlreadyExists (cls i : string)
| HyphenClash (cls : string) (existing : Found) (i : string).

Inductive Outcome :=
| Accepted (ids : gmap string (gmap string string))
| Rejected (why : Rejection)
| Unmodelled.   (* [ids[className]] is a member of [Object.prototype] *)

Definition is_config (cls : string) : bool :=
  bool_decide (cls ∈ ["Parameter"; "Secret"]).

(** [ids.Secret?.[normId]], [ids.Parameter?.[normId]]. *)
Definition config_read (ids : gmap string (gmap string string))
    (cls normId : string) : option Found :=
  match ids !! cls with
  | Some o => read o normId
  | None => None
  end.

(** Lines 599-600. *)
Definition store (ids : gmap string (gmap string string))
    (existingIds : gmap string string) (c : Construct) : Outcome :=
  Accepted (<[className c := <[normalize (id c) := id c]> existingIds]> ids).

(** [visit(c)], lines 548-601. *)
Definition visit (c : Construct) (ids : gmap string (gmap string string))
  : Outcome :=
  if negb (isSSTConstruct c) then Accepted ids
  else if isFunction c && doNotAllowOthersToBind c then Accepted ids
  else
    let normId := normalize (id c) in
    if negb (valid_id (id c)) then Rejected (InvalidId (id c) (className c))
    else if is_config (className c) then
      let existingIds := default ∅ (ids !! className c) in
      match or_else (config_read ids "Secret" normId)
                    (config_read ids "Parameter" normId) with
      | Some (Own v) =>
          if String.eqb v (id c) then Rejected (ConfigExists (id c))
          else if truthy (Some (Own v)) then Rejected (ConfigClash (Own v) (id c))
          else store ids existingIds c
      | Some (Builtin k) => Rejected (ConfigClash (Builtin k) (id c))
      | None => store ids existingIds c
      end
    else
      match ids !! className c with
      | None =>
          if bool_decide (className c ∈ object_prototype) then Unmodelled
          else match read ∅ normId with
               | Some (Builtin k) =>
                   Rejected (HyphenClash (className c) (Builtin k) (id c))
               | _ => store ids ∅ c
               end
      | Some existingIds =>
          match read existingIds normId with
          | Some (Own v) =>
              if truthy (Some (Own v)) then
                if String.eqb v (id c)
                then Rejected (AlreadyExists (className c) (id c))
                else Rejected (HyphenClash (className c) (Own v) (id c))
              else store ids existingIds c
          | Some (Builtin k) =>
              Rejected (HyphenClash (className c) (Builtin k) (id c))
          | None => store ids existingIds c
          end
      end.

(** The aspect visits the constructs one after the other and stops at the
    first throw. *)
Fixpoint visit_all (cs : list Construct) (ids : gmap string (gmap string string))
  : Outcome :=
  match cs with
  | [] => Accepted ids
  | c :: rest =>
      match visit c ids with
      | Accepted ids' => visit_all rest ids'
      | refused => refused
      end
  end.

(** A construct whose id is checked at all. *)
Definition checked (c : Construct) : bool :=
  isSSTConstruct c && negb (isFunction c && doNotAllowOthersToBind c).

(** Parameters and secrets share one space of ids ([None]); every other
    class has its own. *)
Definition space (c : Construct) : option string :=
  if is_config (className c) then None else Some (className c).

(** [c] has claimed its normalised id in [ids]. *)
Definition claimed (ids : gmap string (gmap string string)) (c : Construct) : Prop :=
  exists o, ids !! className c = Some o /\ o !! normalize (id c) = Some (id c).

(** Every entry of the registry maps the normalised form of a valid id to
    that id. *)
Definition consistent (ids : gmap string (gmap string string)) : Prop :=
  forall cls o k v,
    ids !! cls = Some o -> o !! k = Some v ->
    valid_id v = true /\ k = normalize v.

(** No normalised id is held by a secret and by a parameter at once. *)
Definition exclusive (ids : gmap string (gmap string string)) : Prop :=
  forall secrets parameters n v v',
    ids !! "Secret" = Some secrets -> ids !! "Parameter" = Some parameters ->
    secrets !! n = Some v -> parameters !! n = Some v' -> False.

(** No claim stands in the way of [c] in [ids]. *)
Definition vacant (ids : gmap string (gmap string string)) (c : Construct) : Prop :=
  if is_config (className c)
  then truthy (config_read ids "Secret" (normalize (id c))) = false
       /\ truthy (config_read ids "Parameter" (normalize (id c))) = false
  else truthy (read (default ∅ (ids !! className c)) (normalize (id c))) = false.

(** What [visit] throws when [c] is visited again, and when a construct of
    the same space whose id differs from that of [c] by hyphens and
    underscores only is visited after [c]. *)
Definition duplicate (c : Construct) : Rejection :=
  if is_config (className c) then ConfigExists (id c)
  else AlreadyExists (className c) (id c).

Definition near_duplicate (c c' : Construct) : Rejection :=
  if is_config (className c') then ConfigClash (Own (id c)) (id c')
  else HyphenClash (className c') (Own (id c)) (id c').

End UniqueIds.

(** Constructs used as examples. *)

Module Constructs.

Import UniqueIds.

Definition construct (cls i : string) : Construct :=
  {| isSSTConstruct := true; isFunction := false;
     doNotAllowOthersToBind := false; className := cls; id := i |}.

(** A function that others may not bind: its id is not checked. *)
Definition job (i : string) : Construct :=
  {| isSSTConstruct := true; isFunction := true;
     doNotAllowOthersToBind := true; className := "Function"; id := i |}.

Definition sample : list Construct :=
  [construct "Bucket" "users-bucket"; job "users-bucket";
   construct "Table" "users-bucket"; construct "Secret" "STRIPE_KEY";
   construct "Parameter" "API_URL"].

(** A parameter named as a member of [Object.prototype], and a secret. *)
Definition shadowed : list Construct :=
  [construct "Parameter" "toString"; construct "Secret" "a"].

Definition sample_ids : gmap string (gmap string string) :=
  <["Parameter" := {[ "API_URL" := "API_URL" ]}]>
    (<["Secret" := {[ "STRIPE_KEY" := "STRIPE_KEY" ]}]>
    (<["Table" := {[ "users_bucket" := "users-bucket" ]}]>
       (<["Bucket" := {[ "users_bucket" := "users-bucket" ]}]> ∅))).

End Constructs.

(** * The app and its stack names ([App], [App.finish])

    Of the constructor the fields it computes from its arguments and the
    environment; of [finish] the test every stack name must pass. *)

Module SstApp.

Inductive Mode := deploy | dev | remove.

Record AppDeployProps := {
  name : option string;
  stage : option string;
  region : option string;
  skipBuild : option bool;
  account : option string;
  debugEndpoint : option string;
  debugBucketArn : option string;
  debugBucketName : option string;
  debugStartedAt : option Z;
  debugBridge : option string;
  debugIncreaseTimeout : option bool;
  mode : Mode
}.

(** What the constructor reads of the process. *)
Record Process := {
  cwd : string;
  CDK_DEFAULT_REGION : option string;
  CDK_DEFAULT_ACCOUNT : option string
}.

Record App := {
  app_local : bool;
  app_mode : Mode;
  app_name : string;
  app_stage : string;
  app_region : string;
  app_account : string;
  app_debugBridge : option string;
  app_debugEndpoint : option string;
  app_debugBucketArn : option string;
  app_debugBucketName : option string;
  app_debugStartedAt : option Z;
  app_debugIncreaseTimeout : option bool;
  app_appPath : string;
  app_skipBuild : bool
}.

(** A string or [undefined] is truthy when it is a non-empty string. *)
Definition truthy (x : option string) : bool :=
  match x with
  | Some (String _ _) => true
  | _ => false
  end.

(** [x || d] with a string [d]. *)
Definition or_string (x : option string) (d : string) : string :=
  match x with
  | Some (String c rest) => String c rest
  | _ => d
  end.

Definition is_dev (m : Mode) : bool :=
  match m with
  | dev => true
  | _ => false
  end.

(** The constructor, lines 199-225. *)
Definition new_App (props : AppDeployProps) (proc : Process) : App :=
  let debugging := truthy (debugEndpoint props) in
  {| app_appPath := cwd proc;
     app_mode := mode props;
     app_local := if debugging then true else is_dev (mode props);
     app_stage := or_string (stage props) "dev";
     app_name := or_string (name props) "my-app";
     app_region :=
       or_string (region props) (or_string (CDK_DEFAULT_REGION proc) "us-east-1");
     app_account :=
       or_string (account props) (or_string (CDK_DEFAULT_ACCOUNT proc) "my-account");
     app_skipBuild := default false (skipBuild props);
     app_debugEndpoint := if debugging then debugEndpoint props else None;
     app_debugBucketArn := if debugging then debugBucketArn props else None;
     app_debugBucketName := if debugging then debugBucketName props else None;
     app_debugStartedAt := if debugging then debugStartedAt props else None;
     app_debugIncreaseTimeout :=
       if debugging then debugIncreaseTimeout props else None;
     app_debugBridge :=
       if debugging && truthy (debugBridge props) then debugBridge props else None |}.

(** [logicalPrefixedName], lines 238-241. *)
Definition logicalPrefixedName (app : App) (logicalName : string) : string :=
  let namePrefix :=
    if String.eqb (app_name app) "" then "" else app_name app +:+ "-" in
  app_stage app +:+ "-" +:+ namePrefix +:+ logicalName.

(** [s.endsWith(suffix)]. *)
Fixpoint endsWith (suffix s : string) : bool :=
  String.eqb suffix s
  || match s with
     | EmptyString => false
     | String _ rest => endsWith suffix rest
     end.

(** [s.indexOf(part) !== -1]. *)
Fixpoint includes (part s : string) : bool :=
  String.prefix part s
  || match s with
     | EmptyString => false
     | String _ rest => includes part rest
     end.

(** The test of lines 349-353 that [finish] puts every stack name to;
    [false] is the throw of line 354. *)
Definition stage_parameterized (stg stackName : string) : bool :=
  String.prefix (stg +:+ "-") stackName
  || endsWith ("-" +:+ stg) stackName
  || includes ("-" +:+ stg +:+ "-") stackName.

(** A deployment to stage [prod], and a process without CDK defaults. *)
Definition deployment : AppDeployProps :=
  {| name := Some "api"; stage := Some "prod"; region := None;
     skipBuild := None; account := None; debugEndpoint := None;
     debugBucketArn := Some "arn:aws:s3:::debug"; debugBucketName := Some "debug";
     debugStartedAt := None; debugBridge := Some "bridge";
     debugIncreaseTimeout := Some true; mode := deploy |}.

Definition shell : Process :=
  {| cwd := "/app"; CDK_DEFAULT_REGION := None; CDK_DEFAULT_ACCOUNT := None |}.

End SstApp.

(** * The status of the bootstrap stack ([loadSSTStatus], [useBootstrap]) *)

Module Bootstrap.

Definition OUTPUT_VERSION : string := "Version".
Definition OUTPUT_BUCKET : string := "BucketName".
Definition LATEST_VERSION : string := "7".

(** An output of the stack as [DescribeStacks] gives it. *)
Record Output := {
  OutputKey : option string;
  OutputValue : option string
}.

Record Status := { version : string; bucket : string }.

(** The [forEach] of lines 997-1003 on the pair [(version, bucket)]. *)
Definition note (found : option string * option string) (o : Output)
  : option string * option string :=
  if bool_decide (OutputKey o = Some OUTPUT_VERSION)
  then (OutputValue o, found.2)
  else if bool_decide (OutputKey o = Some OUTPUT_BUCKET)
       then (found.1, OutputValue o)
       else found.

(** Lines 995-1009 of [loadSSTStatus], after the stack was described:
    [null] unless both outputs were found with a non-empty value. *)
Definition parse_status (outputs : option (list Output)) : option Status :=
  match fold_left note (default [] outputs) (None, None) with
  | (Some (String c v), Some (String d b)) =>
      Some {| version := String c v; bucket := String d b |}
  | _ => None
  end.

(** The value of the last output with key [key], if there is one. *)
Definition last_value (key : string) (outputs : list Output)
  : option (option string) :=
  OutputValue <$> last (filter (fun o => OutputKey o = Some key) outputs).

(** What [useBootstrap] does, in order. *)
Inductive Action :=
| StartSpinner
| BootstrapCDK
| BootstrapSST
| ReloadStatus
| SpinnerSucceed.

Definition needToBootstrapSST (sstStatus : option Status) : bool :=
  match sstStatus with
  | None => true
  | Some st => negb (String.eqb (version st) LATEST_VERSION)
  end.

(** [useBootstrap], lines 745-779, given what the two loads returned and
    what the reload returns when it is made: the actions, and the status
    returned or [None] for the throw of line 770. *)
Definition useBootstrap (cdkStatus : bool) (sstStatus reloaded : option Status)
  : list Action * option Status :=
  let needCDK := negb cdkStatus in
  let needSST := needToBootstrapSST sstStatus in
  if needCDK || needSST then
    let cdk := if needCDK then [BootstrapCDK] else [] in
    if needSST then
      match reloaded with
      | None => (StartSpinner :: cdk ++ [BootstrapSST; ReloadStatus], None)
      | Some st =>
          (StartSpinner :: cdk ++ [BootstrapSST; ReloadStatus; SpinnerSucceed],
           Some st)
      end
    else (StartSpinner :: cdk ++ [SpinnerSucceed], sstStatus)
  else ([], sstStatus).

(** The outputs of a bootstrap stack of an earlier version, and of the
    latest. *)
Definition output (key value : string) : Output :=
  {| OutputKey := Some key; OutputValue := Some value |}.

Definition outdated : list Output :=
  [output "Version" "6"; output "BucketName" "sstbootstrap-bucket"].

Definition latest : list Output :=
  [output "BucketName" "sstbootstrap-bucket"; output "Region" "us-east-1";
   output "Version" "7"].

End Bootstrap.

(** * Properties *)

(** ** Traces compose *)

Lemma emit_emit evs evs' r : emit evs (emit evs' r) = emit (evs ++ evs') r.
Proof. unfold emit; cbn. by rewrite app_assoc. Qed.

Lemma emit_nil r : emit [] r = r.
Proof. by destruct r. Qed.

Lemma accepts_app {M} (check : M -> Event -> bool) next m t1 t2 :
  accepts check next m (t1 ++ t2)
  = accepts check next m t1 && accepts check next (after next m t1) t2.
Proof.
  revert m; induction t1 as [|e t1 IH]; intros m; cbn; [done|].
  by rewrite IH, andb_assoc.
Qed.

Lemma after_app {M} (next : M -> Event -> M) m t1 t2 :
  after next m (t1 ++ t2) = after next (after next m t1) t2.
Proof. apply fold_left_app. Qed.

Lemma requests_app t1 t2 : requests (t1 ++ t2) = requests t1 ++ requests t2.
Proof. apply omap_app. Qed.

Section Facts.

Context (P : Platform) (E : Env) (input : Input).


Lemma run_add a b s :
  run P E input (a + b) s
  = emit (run P E input a s).2 (run P E input b (run P E input a s).1).
Proof.
  revert s; induction a as [|a IH]; intros s; cbn [Nat.add run].
  - by rewrite emit_nil.
  - by rewrite IH, emit_emit.
Qed.

Lemma run_1 s : run P E input 1 s = step P E input s.
Proof.
  cbn. unfold emit; cbn. rewrite app_nil_r. by destruct (step P E input s).
Qed.

Lemma exec_S fuel :
  exec P E input (S fuel)
  = emit (exec P E input fuel).2 (step P E input (exec P E input fuel).1).
Proof.
  unfold exec. replace (S fuel) with (fuel + 1) by lia.
  by rewrite run_add, run_1, emit_emit.
Qed.

Lemma await_cases s delay k : Awaited s delay k (await s delay k).
Proof.
  unfold await. destruct (timeout s) as [due|] eqn:Ht, delay as [dt|].
  - destruct (N.leb_spec due (now s + dt)).
    + apply Awaited_fired; [done|]. intros; simplify_eq; done.
    + eapply Awaited_resumed; [done|]. intros; simplify_eq; done.
  - apply Awaited_fired; [done|]. intros; discriminate.
  - eapply Awaited_resumed; [done|]. intros; congruence.
  - by apply Awaited_blocked.
Qed.

Local Ltac on_await :=
  match goal with
  | |- context [await ?s ?d ?k] => destruct (await_cases s d k)
  end.

(** *** Well-formedness is invariant *)

Lemma armed_advance s dt :
  (exists due, timeout s = Some due /\ (due <= now s + WATCHDOG_MS)%N) ->
  (forall due, timeout s = Some due -> (now s + dt < due)%N) ->
  armed (advance s dt).
Proof.
  intros (due & Ht & Hle) Hlt. exists due. cbn. split; [done|].
  specialize (Hlt _ Ht). lia.
Qed.

Lemma armed_loose s :
  armed s -> exists due, timeout s = Some due /\ (due <= now s + WATCHDOG_MS)%N.
Proof. intros (due & ? & ?). exists due. split; [done|lia]. Qed.

Lemma wf_iterate s : wf P (iterate input s).1.
Proof. by cbn. Qed.

Lemma wf_deliver s response context :
  armed s -> wf P (deliver P input s response context).1.
Proof.
  intros Ha. unfold deliver.
  destruct (JSON_stringify P response) as [ex|text] eqn:Hs; cbn.
  - exact Ha.
  - split; [exact Ha|]. by exists text.
Qed.

Lemma wf_report_loop s context ex :
  armed s ->
  wf P (report P input s (error_path context) ex
          (fun req => AwaitErrorPost req context)).1.
Proof.
  intros Ha. unfold report.
  destruct (error_payload P ex) as [ex'|payload]; [done|].
  destruct (JSON_stringify P payload) as [ex'|text]; [done|].
  cbn. split; [exact Ha|]. by exists text.
Qed.

Lemma wf_settled s context outcome :
  armed s -> wf P (settled P input s context outcome).1.
Proof.
  intros Ha. destruct outcome; cbn [settled emit fst];
    [by apply wf_deliver|by apply wf_report_loop].
Qed.

Lemma wf_polled s result : armed s -> wf P (polled P input s result).1.
Proof.
  intros Ha. unfold polled.
  destruct (JSON_parse P (body result)); [apply wf_iterate|exact Ha].
Qed.

Lemma wf_step s : wf P s -> wf P (step P E input s).1.
Proof.
  unfold wf at 1, step.
  destruct (pc s) as [req|req|request context|req context
                     |req response context|response context|code|ex|] eqn:Hpc.
  - intros [Ht _]. unfold await_fetch.
    destruct (endpoint E (fetches s) req);
      (on_await; [cbn in *; congruence|..]);
      done.
  - intros [-> Ht]. unfold await_fetch.
    assert (Hl : exists due, timeout (count_fetch s) = Some due
                   /\ (due <= now (count_fetch s) + WATCHDOG_MS)%N)
      by (eexists; split; [exact Ht|cbn; lia]).
    destruct (endpoint E (fetches s) poll_request);
      (on_await; [done|..|done]).
    + cbn [emit fst]. by apply wf_polled, armed_advance.
    + cbn [emit fst]. apply wf_iterate.
    + done.
  - intros Ha. pose proof (armed_loose _ Ha) as Hl.
    destruct (call P (fn s) (calls s) request context) as [dt v|dt ex| | |c' dt o].
    + on_await; [done| |done]. cbn [emit fst]. by apply wf_deliver, armed_advance.
    + on_await; [done| |done]. cbn [emit fst].
      by apply wf_report_loop, armed_advance.
    + on_await; done.
    + unfold wf; cbn [fst]. by rewrite Hpc.
    + on_await; [done| |done]. cbn [emit fst]. by apply wf_settled, armed_advance.
  - intros [Ha%armed_loose _]. unfold await_fetch.
    destruct (endpoint E (fetches s) req);
      (on_await; [done|..|done]);
      [apply wf_iterate|done|done].
  - intros [Ha%armed_loose _]. unfold await_fetch.
    destruct (endpoint E (fetches s) req);
      (on_await; [done|..|done]).
    + apply wf_iterate.
    + cbn. by apply (armed_advance (count_fetch s)).
    + done.
  - intros Ha%armed_loose.
    on_await; [done|..|done].
    by apply wf_deliver, armed_advance.
  - intros _. unfold wf; cbn. by rewrite Hpc.
  - intros _. unfold wf; cbn. by rewrite Hpc.
  - intros _. unfold wf; cbn. by rewrite Hpc.
Qed.

Lemma wf_run fuel s : wf P s -> wf P (run P E input fuel s).1.
Proof.
  revert s; induction fuel as [|fuel IH]; intros s Hs; cbn; [done|].
  by apply IH, wf_step.
Qed.

Lemma wf_start : wf P (start P E input).1.
Proof.
  unfold start. destruct (load P E input) as [ex|f]; [|apply wf_iterate].
  unfold report. destruct (error_payload P ex) as [ex'|payload]; [done|].
  destruct (JSON_stringify P payload) as [ex'|text]; [done|].
  cbn. split; [done|]. by exists text.
Qed.

Lemma wf_exec fuel : wf P (exec P E input fuel).1.
Proof. apply wf_run, wf_start. Qed.

(** An [await] that settles before the timer is due resumes the script. *)
Lemma await_resumes s due dt k :
  timeout s = Some due -> (now s + dt < due)%N ->
  await s (Some dt) k = k (advance s dt).
Proof.
  intros Ht Hlt. unfold await. rewrite Ht.
  destruct (N.leb_spec due (now s + dt)); [lia|done].
Qed.

End Facts.

Ltac on_await :=
  match goal with
  | |- context [await ?s ?d ?k] => destruct (await_cases s d k)
  end.

(** ** Monitors follow the script *)

Section Monitored.

Context (P : Platform) (E : Env) (input : Input).
Context {M : Type} (check : M -> Event -> bool) (next : M -> Event -> M).

(** [R m s]: what the monitor state [m] knows when the script waits in [s]. *)
Context (R : M -> State -> Prop).

Hypothesis R_step : forall m s,
  wf P s -> R m s ->
  accepts check next m (step P E input s).2 = true
  /\ R (after next m (step P E input s).2) (step P E input s).1.

Lemma monitored_run fuel m s :
  wf P s -> R m s ->
  accepts check next m (run P E input fuel s).2 = true
  /\ R (after next m (run P E input fuel s).2) (run P E input fuel s).1.
Proof.
  revert m s; induction fuel as [|fuel IH]; intros m s Hwf HR;
    cbn [run emit fst snd]; [done|].
  destruct (R_step m s Hwf HR) as [Hacc HR'].
  destruct (IH _ _ (wf_step P E input s Hwf) HR') as [Hacc' HR''].
  rewrite accepts_app, after_app, Hacc, Hacc'. done.
Qed.

Lemma monitored_exec m0 fuel :
  accepts check next m0 (start P E input).2 = true ->
  R (after next m0 (start P E input).2) (start P E input).1 ->
  accepts check next m0 (exec P E input fuel).2 = true.
Proof.
  intros Hacc HR. unfold exec; cbn [emit fst snd].
  rewrite accepts_app, Hacc. cbn [andb].
  by apply monitored_run; [apply wf_start|].
Qed.

End Monitored.

Lemma prefix_append (p s : string) : String.prefix p (p +:+ s) = true.
Proof.
  induction p as [|c p IH]; [by destruct s|].
  change (String c p +:+ s) with (String c (p +:+ s)). cbn [String.prefix].
  by destruct (Ascii.ascii_dec c c).
Qed.

Lemma is_delivery_error c text : is_delivery (post (error_path c) text) = true.
Proof. unfold is_delivery, error_path. cbn. by rewrite prefix_append. Qed.

Lemma is_delivery_response c text :
  is_delivery (post (response_path c) text) = true.
Proof. unfold is_delivery, response_path. cbn. by rewrite prefix_append. Qed.

Section Sequential.

Context (P : Platform) (E : Env) (input : Input).





Local Ltac peel :=
  simplify_eq;
  cbn [emit fst snd app accepts after fold_left
       in_flight_check in_flight_next andb].



End Sequential.

Section Threaded.

Context (P : Platform) (E : Env) (input : Input).

(** The template of lines 121 and 138 writes the request id as the
    monitor expects it. *)
Lemma template_id_text rid : template rid = id_text rid.
Proof. by destruct rid. Qed.

Lemma threaded_post_error m c text target :
  knows m c ->
  threaded_check m (EvRequest target (post (error_path c) text)) = true.
Proof.
  intros ->. unfold threaded_check. rewrite is_delivery_error.
  unfold error_path. cbn [req_path post]. rewrite template_id_text.
  by rewrite String.eqb_refl.
Qed.

Lemma threaded_post_response m c text target :
  knows m c ->
  threaded_check m (EvRequest target (post (response_path c) text)) = true.
Proof.
  intros ->. unfold threaded_check. rewrite is_delivery_response.
  unfold response_path. cbn [req_path post]. rewrite template_id_text.
  by rewrite String.eqb_refl, orb_true_r.
Qed.

Lemma threaded_iterate m s :
  accepts threaded_check (threaded_next true) m (iterate input s).2 = true
  /\ threaded_at
       (after (threaded_next true) m (iterate input s).2) (iterate input s).1.
Proof. unfold iterate. by destruct (timeout s). Qed.

Lemma threaded_deliver m s response c :
  knows m c ->
  accepts threaded_check (threaded_next true) m (deliver P input s response c).2 = true
  /\ threaded_at
       (after (threaded_next true) m (deliver P input s response c).2)
                 (deliver P input s response c).1.
Proof.
  intros Hk. unfold deliver. destruct (JSON_stringify P response); [done|].
  unfold fetch. cbn [fst snd accepts after fold_left].
  by rewrite threaded_post_response.
Qed.

Lemma threaded_report m s c ex :
  knows m c ->
  let r := report P input s (error_path c) ex (fun req => AwaitErrorPost req c) in
  accepts threaded_check (threaded_next true) m r.2 = true
  /\ threaded_at
       (after (threaded_next true) m r.2) r.1.
Proof.
  intros Hk. unfold report.
  destruct (error_payload P ex) as [ex'|payload]; [done|].
  destruct (JSON_stringify P payload); [done|].
  unfold fetch. cbn [fst snd accepts after fold_left].
  by rewrite threaded_post_error.
Qed.

Lemma threaded_settled m s c outcome :
  knows m c ->
  accepts threaded_check (threaded_next true) m (settled P input s c outcome).2 = true
  /\ threaded_at
       (after (threaded_next true) m (settled P input s c outcome).2)
                 (settled P input s c outcome).1.
Proof.
  intros Hk. destruct outcome as [response|ex];
    cbn [settled emit fst snd app accepts after fold_left threaded_check
         threaded_next andb];
    [by apply threaded_deliver|by apply threaded_report].
Qed.

Local Ltac peel :=
  simplify_eq;
  cbn [emit fst snd app accepts after fold_left threaded_check threaded_next
       andb].

Lemma threaded_step m s :
  wf P s -> threaded_at m s ->
  accepts threaded_check (threaded_next true) m (step P E input s).2 = true
  /\ threaded_at
       (after (threaded_next true) m (step P E input s).2) (step P E input s).1.
Proof.
  unfold wf, threaded_at at 1, step.
  destruct (pc s) as [req|req|request c|req c|req response c|response c|code|ex|]
    eqn:Hpc; unfold await_fetch.
  - intros _ _. destruct (endpoint E (fetches s) req); on_await; done.
  - intros [-> _] _.
    destruct (endpoint E (fetches s) poll_request); on_await; try done; peel.
    + change (is_poll poll_request) with true. cbv iota.
      unfold polled. destruct (JSON_parse P (body res)).
      * apply threaded_iterate.
      * done.
    + apply threaded_iterate.
  - intros _ Hk.
    destruct (call P (fn s) (calls s) request c) as [dt v|dt ex| | |c' dt o];
      [on_await; try done; peel..| |on_await; try done; peel].
    + by apply threaded_deliver.
    + by apply threaded_report.
    + unfold threaded_at. cbn [fst snd accepts after fold_left]. by rewrite Hpc.
    + by apply threaded_settled.
  - intros [_ [text ->]] Hk.
    destruct (endpoint E (fetches s) _); on_await; try done; peel.
    change (is_poll (post _ _)) with false. cbv iota. apply threaded_iterate.
  - intros [_ (text & _ & ->)] Hk.
    destruct (endpoint E (fetches s) _); on_await; try done; peel.
    change (is_poll (post _ _)) with false. cbv iota. apply threaded_iterate.
  - intros _ Hk. on_await; try done; peel. by apply threaded_deliver.
  - intros _ _. unfold threaded_at; cbn. by rewrite Hpc.
  - intros _ _. unfold threaded_at; cbn. by rewrite Hpc.
  - intros _ _. unfold threaded_at; cbn. by rewrite Hpc.
Qed.

Lemma threaded_start :
  accepts threaded_check (threaded_next true) None (start P E input).2 = true
  /\ threaded_at
       (after (threaded_next true) None (start P E input).2) (start P E input).1.
Proof.
  unfold start. destruct (load P E input) as [ex|f]; [|apply threaded_iterate].
  unfold report. destruct (error_payload P ex) as [ex'|payload]; [done|].
  by destruct (JSON_stringify P payload).
Qed.

(** Where the handler assigns nothing, following its assignments makes no
    difference. *)
Lemma threaded_without_assignments tr : forall m,
  assignments tr = [] ->
  accepts threaded_check (threaded_next false) m tr
  = accepts threaded_check (threaded_next true) m tr.
Proof.
  induction tr as [|e tr IH]; intros m Hnone; [done|].
  cbn [accepts]. destruct e; cbn in Hnone |- *; try discriminate;
    by rewrite IH.
Qed.

End Threaded.

(** ** The example platform is a lawful one *)

Lemma demo_serialises_reports : serialises_reports Demo.platform.
Proof.
  assert (Hlines : forall ls,
      exists t, Demo.stringify (VArr (VStr <$> ls)) = Some (Some t)).
  { intros ls; cbn.
    enough (Hgo : exists l,
      (fix go (xs : list Value) : option (list string) :=
         match xs with
         | [] => Some []
         | x :: rest =>
             match Demo.stringify x, go rest with
             | Some o, Some l => Some (default "null" o :: l)
             | _, _ => None
             end
         end) (VStr <$> ls) = Some l)
      by (destruct Hgo as [l ->]; eexists; reflexivity).
    induction ls as [|x ls [l IH]]; cbn; [eexists; reflexivity|].
    rewrite IH; eexists; reflexivity. }
  intros message stack. cbn [JSON_stringify Demo.platform].
  unfold Demo.serialize, error_object.
  destruct message as [m|], stack as [st|]; cbn [from_option].
  all: try (cbn; eexists; reflexivity).
  all: destruct (Hlines (split_lines st)) as [t Ht].
  all: cbn [Demo.stringify]; cbn [Demo.stringify] in Ht; rewrite Ht.
  all: eexists; reflexivity.
Qed.

(** ** Running the script on the example of the specification *)

Example hello_resolves :
  file Demo.platform Worlds.friendly Demo.hello = Some "/build/api/hello.js"
  /\ load Demo.platform Worlds.friendly Demo.hello = inr Worlds.returns_ok.
Proof. by vm_compute. Qed.

Example hello_writes :
  written <$> requests (trace (exec Demo.platform Worlds.friendly Demo.hello 3))
  = [None; Some Worlds.ok_text; None].
Proof. by vm_compute. Qed.

Example hello_delivers :
  requests (trace (exec Demo.platform Worlds.friendly Demo.hello 3))
  = [poll_request;
     post "/runtime/invocation/abc-1/response" (Some Worlds.ok_text);
     poll_request].
Proof. by vm_compute. Qed.

Example single_in_flight_refuses_overlap :
  single_in_flight (fun _ => true)
    [EvResolved poll_request (Demo.invocation "abc-1" "{}");
     EvRequest "" poll_request] = false.
Proof. reflexivity. Qed.

Example single_in_flight_refuses_second_call c :
  single_in_flight (fun _ => true)
    [EvResolved poll_request (Demo.invocation "abc-1" "{}");
     EvInvoke VNull c; EvInvoke VNull c] = false.
Proof. reflexivity. Qed.

Example single_in_flight_takes_a_delivery c :
  single_in_flight (fun _ => true)
    [EvResolved poll_request (Demo.invocation "abc-1" "{}");
     EvInvoke VNull c;
     EvRequest "" (post "/runtime/invocation/abc-1/response" None);
     EvResolved (post "/runtime/invocation/abc-1/response" None) (Demo.ok "");
     EvRequest "" poll_request] = true.
Proof. reflexivity. Qed.

Example threaded_refuses_other_id :
  threaded [EvResolved poll_request (Demo.invocation "abc-1" "{}");
            EvRequest "" (post "/runtime/invocation/abc-2/response" None)] = false
  /\ threaded [EvResolved poll_request (Demo.invocation "abc-1" "{}");
               EvRequest "" (post "/runtime/invocation/abc-1/response" None)] = true
  /\ threaded [EvResolved poll_request (Demo.ok "{}");
               EvRequest "" (post "/runtime/invocation/undefined/error" None)] = true
  /\ threaded [EvResolved poll_request (Demo.ok "{}");
               EvRequest "" (post "/runtime/invocation//error" None)] = false.
Proof. by vm_compute. Qed.

(** ** The claims *)



(** C2 (as the code has it). Request-id threading: in every execution,
    every POST under [/runtime/invocation/] goes to the error or the
    response path of the current request id, written unchanged between
    [/runtime/invocation/] and [/error] or [/response]: the value of the
    [lambda-runtime-aws-request-id] header of the latest answered poll (the
    text [undefined] without that header), or what the handler has since
    assigned to [context.awsRequestId].  Where the handler assigns nothing,
    it is the id of the header. *)
Theorem request_id_threading P E input fuel :
  threaded (trace (exec P E input fuel)) = true
  /\ (assignments (trace (exec P E input fuel)) = [] ->
      header_threaded (trace (exec P E input fuel)) = true).
Proof.
  assert (Hthreaded : threaded (trace (exec P E input fuel)) = true).
  { destruct (threaded_start P E input) as [Hacc HR].
    apply (monitored_exec P E input threaded_check (threaded_next true)
             threaded_at);
      [apply threaded_step|done..]. }
  split; [done|]. intros Hnone. unfold header_threaded.
  by rewrite threaded_without_assignments.
Qed.

(** In [Worlds.friendly] the handler assigns nothing. *)
Lemma request_id_threading_witness :
  header_threaded (trace (exec Demo.platform Worlds.friendly Demo.hello 3)) = true.
Proof.
  apply (request_id_threading Demo.platform Worlds.friendly Demo.hello 3).
  reflexivity.
Defined.

(** C2 as stated fails: the handler of [Cases.meddling] is called for the
    invocation [abc-1] and assigns [other] to [context.awsRequestId] before
    it returns; the response goes to the path of [other]. *)
Lemma reassigned_request_id_reaches_the_path :
  endpoint Cases.meddling 0 poll_request
  = Resolve 10 (Demo.invocation "abc-1" "{}")
  /\ invocations (trace (exec Demo.platform Cases.meddling Demo.hello 2))
     = [(VObj [], Worlds.abc1)]
  /\ req_path <$> requests (trace (exec Demo.platform Cases.meddling Demo.hello 2))
     = ["/runtime/invocation/next"; "/runtime/invocation/other/response"]
  /\ header_threaded (trace (exec Demo.platform Cases.meddling Demo.hello 2))
     = false.
Proof. by vm_compute. Qed.

(** ** The watchdog pre-empts whatever is awaited *)

Section Watchdog.

Context (P : Platform) (E : Env) (input : Input).

Lemma exec_add fuel more :
  exec P E input (fuel + more)
  = emit (exec P E input fuel).2 (run P E input more (exec P E input fuel).1).
Proof. unfold exec. by rewrite run_add, emit_emit. Qed.

Lemma run_halted fuel s :
  phase (pc s) = None -> run P E input fuel s = (s, []).
Proof.
  intros Hp. induction fuel as [|fuel IH]; cbn [run]; [done|].
  assert (Hs : step P E input s = (s, []))
    by (unfold step; destruct (pc s); done).
  rewrite Hs. cbn [fst snd]. by rewrite IH.
Qed.

(** If the awaited promise does not settle before the timer is due, and
    the event loop is free, the next thing that happens is
    [process.exit(0)], when the timer is due. *)
Lemma step_watchdog s due :
  timeout s = Some due ->
  phase (pc s) <> None ->
  blocking P s = false ->
  (forall dt, awaited_delay P E s = Some dt -> (due <= now s + dt)%N) ->
  exists s',
    step P E input s = (s', [EvExit 0]) /\ pc s' = Exited 0 /\ now s' = due.
Proof.
  intros Ht Hp Hfree Hlate. unfold awaited_delay in Hlate.
  unfold blocking in Hfree. unfold step, await_fetch.
  destruct (pc s) as [req|req|request c|req c|req response c|response c|code|ex|];
    try done;
    try destruct (endpoint E (fetches s) req) as [dt res|dt err|];
    try destruct (call P (fn s) (calls s) request c) as [dt v|dt ex| | |c' dt o];
    try discriminate;
    unfold await; cbn [timeout count_fetch count_call]; rewrite Ht;
    try (specialize (Hlate _ eq_refl);
         match goal with
         | |- context [(due <=? ?t)%N] =>
             destruct (N.leb_spec due t); [|cbn in *; lia]
         end);
    by eexists.
Qed.

Lemma run_watchdog more s due :
  timeout s = Some due ->
  phase (pc s) <> None ->
  blocking P s = false ->
  (forall dt, awaited_delay P E s = Some dt -> (due <= now s + dt)%N) ->
  exists s',
    run P E input (S more) s = (s', [EvExit 0])
    /\ pc s' = Exited 0 /\ now s' = due.
Proof.
  intros Ht Hp Hfree Hlate.
  destruct (step_watchdog s due Ht Hp Hfree Hlate) as (s' & Hs & Hpc & Hnow).
  exists s'. cbn [run]. rewrite Hs. cbn [fst snd].
  rewrite run_halted by (by rewrite Hpc). done.
Qed.

(** In the loop the timer is always armed, due in the future and at most
    [WATCHDOG_MS] away. *)
Lemma wf_armed s :
  wf P s ->
  phase (pc s) <> None -> phase (pc s) <> Some Initializing ->
  armed s.
Proof.
  unfold wf. destruct (pc s); try done.
  - intros [_ Ht] _ _. eexists; split; [exact Ht|]. unfold WATCHDOG_MS. lia.
  - by intros [? _].
  - by intros [? _].
Qed.

(** While the handler blocks the event loop nothing happens. *)
Lemma run_blocking more s :
  blocking P s = true -> run P E input more s = (s, []).
Proof.
  intros Hblock. induction more as [|more IH]; cbn [run]; [done|].
  assert (Hs : step P E input s = (s, [])).
  { unfold blocking in Hblock. unfold step.
    destruct (pc s); try done.
    by destruct (call P (fn s) (calls s) request context). }
  rewrite Hs. cbn [fst snd]. by rewrite IH.
Qed.

End Watchdog.

(** C3 (as the code has it). When the promise awaited in the Invoking or
    the Responding state never settles (in Invoking: the handler call never
    completes), the script makes no further control call.  If the handler
    never returns to the event loop, the script stays in Invoking and the
    process never exits.  Otherwise the watchdog armed at the top of the
    iteration, which a successful poll does not clear, ends the process
    with code 0 when it comes due, at most [WATCHDOG_MS] later: the
    watchdog exit is not confined to AwaitingInvocation. *)
Theorem stuck_invocation_ends_at_watchdog P E input fuel :
  let s := (exec P E input fuel).1 in
  phase (pc s) = Some Invoking \/ phase (pc s) = Some Responding ->
  awaited_delay P E s = None ->
  if blocking P s
  then phase (pc s) = Some Invoking
       /\ forall more, exec P E input (fuel + more) = exec P E input fuel
  else exists due,
         timeout s = Some due
         /\ (now s < due <= now s + WATCHDOG_MS)%N
         /\ forall more, exists s',
              exec P E input (fuel + S more)
              = (s', trace (exec P E input fuel) ++ [EvExit 0])
              /\ pc s' = Exited 0 /\ now s' = due.
Proof.
  intros s Hphase Hnever.
  destruct (blocking P s) eqn:Hblock.
  - split.
    + unfold blocking in Hblock. by destruct (pc s).
    + intros more. rewrite exec_add. fold s. rewrite run_blocking by done.
      unfold emit. cbn [fst snd]. rewrite app_nil_r. by destruct (exec P E input fuel).
  - assert (Hloop : phase (pc s) <> None /\ phase (pc s) <> Some Initializing)
      by (destruct Hphase as [-> | ->]; done).
    destruct (wf_armed P s (wf_exec P E input fuel)) as (due & Ht & Hdue);
      [apply Hloop..|].
    exists due. split; [done|]. split; [done|]. intros more.
    destruct (run_watchdog P E input more s due Ht) as (s' & Hrun & Hpc & Hnow);
      [apply Hloop|done|intros dt; rewrite Hnever; done|].
    exists s'. rewrite exec_add. fold s. by rewrite Hrun.
Qed.

(** The handler of [Worlds.hanging] returns a promise that never settles:
    the script waits in Invoking and leaves with code 0 when the timer is
    due.  The handler of [Cases.busy] never returns: the script stays in
    Invoking. *)
Lemma stuck_invocation_ends_at_watchdog_witness :
  (exists due,
     timeout (exec Demo.platform Worlds.hanging Demo.hello 1).1 = Some due
     /\ (now (exec Demo.platform Worlds.hanging Demo.hello 1).1 < due
         <= now (exec Demo.platform Worlds.hanging Demo.hello 1).1 + WATCHDOG_MS)%N
     /\ forall more, exists s',
          exec Demo.platform Worlds.hanging Demo.hello (1 + S more)
          = (s', trace (exec Demo.platform Worlds.hanging Demo.hello 1) ++ [EvExit 0])
          /\ pc s' = Exited 0 /\ now s' = due)
  /\ (phase (pc (exec Demo.platform Cases.busy Demo.hello 1).1) = Some Invoking
      /\ forall more,
           exec Demo.platform Cases.busy Demo.hello (1 + more)
           = exec Demo.platform Cases.busy Demo.hello 1).
Proof.
  split.
  - apply (stuck_invocation_ends_at_watchdog Demo.platform Worlds.hanging
             Demo.hello 1).
    + left. reflexivity.
    + reflexivity.
  - apply (stuck_invocation_ends_at_watchdog Demo.platform Cases.busy
             Demo.hello 1).
    + left. reflexivity.
    + reflexivity.
Defined.

(** C3 as stated fails: with a handler whose promise never settles the
    script is in Invoking after the poll, and the process then exits with
    code 0. *)
Lemma hung_handler_exits :
  phase (pc (exec Demo.platform Worlds.hanging Demo.hello 1).1) = Some Invoking
  /\ awaited_delay Demo.platform Worlds.hanging
       (exec Demo.platform Worlds.hanging Demo.hello 1).1 = None
  /\ pc (exec Demo.platform Worlds.hanging Demo.hello 2).1 = Exited 0
  /\ now (exec Demo.platform Worlds.hanging Demo.hello 2).1 = 900000%N.
Proof. by vm_compute. Qed.

(** ** Where the timer is armed *)

Section Arming.

Context (P : Platform) (E : Env) (input : Input).

(** Only the top of the loop touches [timeout]. *)
Lemma step_keeps_timeout s :
  phase (pc (step P E input s).1) <> Some AwaitingInvocation ->
  timeout (step P E input s).1 = timeout s.
Proof.
  unfold step, await_fetch.
  destruct (pc s) as [req|req|request c|req c|req response c|response c|code|ex|];
    try done;
    try destruct (endpoint E (fetches s) req) as [dt res|dt err|];
    try destruct (call P (fn s) (calls s) request c) as [dt v|dt ex| | |c' dt o];
    try on_await; try done; cbn [emit fst].
  - unfold polled. by destruct (JSON_parse P (body res)).
  - unfold deliver. by destruct (JSON_stringify P v).
  - unfold report. destruct (error_payload P ex) as [ex'|payload]; [done|].
    by destruct (JSON_stringify P payload).
  - destruct o as [v|ex]; cbn [settled emit fst].
    + unfold deliver. by destruct (JSON_stringify P v).
    + unfold report. destruct (error_payload P ex) as [ex'|payload]; [done|].
      by destruct (JSON_stringify P payload).
  - unfold deliver. by destruct (JSON_stringify P response).
Qed.

End Arming.

(** C4 (as the code has it). The watchdog lasts 900 s; the timer is re-armed
    exactly at the top of the loop, that is on each entry into
    AwaitingInvocation (a failed poll is such an entry), and nowhere else;
    when the poll awaited there does not settle within 900 s, neither
    answered nor failed, the process ends with code 0 at expiry and makes
    no further control call. *)
Theorem watchdog_window P E input fuel :
  let s := (exec P E input fuel).1 in
  let s' := (exec P E input (S fuel)).1 in
  WATCHDOG_MS = (900 * 1000)%N
  /\ (phase (pc s) = Some AwaitingInvocation ->
      timeout s = Some (now s + WATCHDOG_MS)%N)
  /\ (phase (pc s') <> Some AwaitingInvocation -> timeout s' = timeout s)
  /\ (phase (pc s) = Some AwaitingInvocation ->
      (forall dt, awaited_delay P E s = Some dt -> (WATCHDOG_MS <= dt)%N) ->
      forall more, exists s'',
        exec P E input (fuel + S more)
        = (s'', trace (exec P E input fuel) ++ [EvExit 0])
        /\ pc s'' = Exited 0 /\ now s'' = (now s + WATCHDOG_MS)%N).
Proof.
  intros s s'.
  assert (Harmed : phase (pc s) = Some AwaitingInvocation ->
                   timeout s = Some (now s + WATCHDOG_MS)%N).
  { pose proof (wf_exec P E input fuel) as Hwf. fold s in Hwf.
    unfold wf in Hwf. destruct (pc s); try done. by destruct Hwf. }
  split; [done|]. split; [done|]. split.
  - subst s s'. rewrite exec_S. cbn [emit fst]. apply step_keeps_timeout.
  - intros Hphase Hlate more.
    destruct (run_watchdog P E input more s _ (Harmed Hphase))
      as (s'' & Hrun & Hpc & Hnow).
    + by rewrite Hphase.
    + unfold blocking. by destruct (pc s).
    + intros dt Hdt. specialize (Hlate dt Hdt). lia.
    + exists s''. rewrite exec_add. fold s. by rewrite Hrun.
Qed.

(** In [Worlds.garbled] the first poll is answered with a body that is not
    JSON and the second poll is never answered: the timer is re-armed when
    the second poll goes out, and the process leaves with code 0 when it is
    due. *)
Lemma watchdog_window_witness :
  WATCHDOG_MS = (900 * 1000)%N
  /\ timeout (exec Demo.platform Worlds.garbled Demo.hello 1).1
     = Some (now (exec Demo.platform Worlds.garbled Demo.hello 1).1 + WATCHDOG_MS)%N
  /\ timeout (exec Demo.platform Worlds.garbled Demo.hello 2).1
     = timeout (exec Demo.platform Worlds.garbled Demo.hello 1).1
  /\ forall more, exists s'',
       exec Demo.platform Worlds.garbled Demo.hello (1 + S more)
       = (s'', trace (exec Demo.platform Worlds.garbled Demo.hello 1) ++ [EvExit 0])
       /\ pc s'' = Exited 0
       /\ now s'' = (now (exec Demo.platform Worlds.garbled Demo.hello 1).1
                     + WATCHDOG_MS)%N.
Proof.
  destruct (watchdog_window Demo.platform Worlds.garbled Demo.hello 1)
    as (Hms & Harm & Hkeep & Hfire).
  split; [exact Hms|]. split; [|split].
  - apply Harm. reflexivity.
  - apply Hkeep. vm_compute. discriminate.
  - apply Hfire.
    + reflexivity.
    + intros dt Hdt. vm_compute in Hdt. discriminate.
Defined.

(** With an endpoint that is down the script polls for ever. *)
Lemma unreachable_never_exits fuel :
  pc (exec Demo.platform Worlds.unreachable Demo.hello fuel).1
  = AwaitPoll poll_request.
Proof.
  induction fuel as [|fuel IH]; [reflexivity|].
  pose proof (wf_exec Demo.platform Worlds.unreachable Demo.hello fuel) as Hwf.
  unfold wf in Hwf. rewrite IH in Hwf. destruct Hwf as [_ Ht].
  rewrite exec_S. cbn [emit fst]. unfold step, await_fetch. rewrite IH.
  change (endpoint Worlds.unreachable _ poll_request)
    with (Reject 600000 Worlds.reset).
  cbv iota. rewrite (await_resumes (count_fetch _) _ _ _ Ht)
    by (cbn [now count_fetch]; unfold WATCHDOG_MS; lia).
  reflexivity.
Qed.

(** C4 as stated fails: when every poll fails after ten minutes, no
    invocation is polled in twenty minutes, and the process waits for its
    third poll instead of having left. *)
Lemma failing_polls_postpone_the_exit :
  invocations (trace (exec Demo.platform Worlds.unreachable Demo.hello 2)) = []
  /\ now (exec Demo.platform Worlds.unreachable Demo.hello 2).1 = 1200000%N
  /\ phase (pc (exec Demo.platform Worlds.unreachable Demo.hello 2).1)
     = Some AwaitingInvocation
  /\ exit_status (pc (exec Demo.platform Worlds.unreachable Demo.hello 2).1) = None.
Proof. by vm_compute. Qed.


(** ** The response is retried until it is delivered *)

Section Retry.

Context (P : Platform) (E : Env) (input : Input).




Lemma step_handler_returned s request c due dt response text :
  pc s = AwaitHandler request c ->
  timeout s = Some due -> (now s + dt < due)%N ->
  call P (fn s) (calls s) request c = Return dt response ->
  JSON_stringify P response = inr text ->
  step P E input s
  = emit [EvReturned response]
      (fetch input (advance (count_call s) dt) (post (response_path c) text)
             (fun req => AwaitResponsePost req response c)).
Proof.
  intros Hpc Ht Hlt Hcall Htext. unfold step. rewrite Hpc, Hcall.
  rewrite (await_resumes _ due) by done. unfold deliver. by rewrite Htext.
Qed.



End Retry.




(** ** The error report *)

Section ErrorDelivery.

Context (P : Platform) (E : Env) (input : Input).

(** When the error POST is answered the script polls again: one report per
    throwing call. *)
Lemma handler_error_reported_once s request c due dt ex message stack text dt' res :
  pc s = AwaitHandler request c ->
  timeout s = Some due ->
  call P (fn s) (calls s) request c = Throw dt ex ->
  ex = ThrownObj message stack ->
  JSON_stringify P (error_object message stack) = inr text ->
  endpoint E (fetches s) (post (error_path c) text) = Resolve dt' res ->
  (now s + dt + dt' < due)%N ->
  (run P E input 2 s).2
  = [EvThrew ex;
     EvRequest (url input +:+ error_path c) (post (error_path c) text);
     EvResolved (post (error_path c) text) res;
     EvClearTimeout; EvSetTimeout WATCHDOG_MS;
     EvRequest (url input +:+ req_path poll_request) poll_request].
Proof.
  intros Hpc Ht Hcall -> Htext Hreply Hlt.
  change 2 with (1 + 1). rewrite run_add, !run_1.
  assert (Hfirst : step P E input s
                   = (goto (advance (count_call s) dt)
                           (AwaitErrorPost (post (error_path c) text) c),
                      [EvThrew (ThrownObj message stack);
                       EvRequest (url input +:+ error_path c)
                                 (post (error_path c) text)])).
  { unfold step. rewrite Hpc, Hcall.
    rewrite (await_resumes _ due) by (done || cbn; lia).
    unfold report. cbn [error_payload]. by rewrite Htext. }
  rewrite Hfirst. cbn [emit fst snd].
  unfold step, await_fetch. cbn [pc goto fetches advance count_call].
  rewrite Hreply, (await_resumes _ due) by (done || cbn; lia).
  unfold iterate, fetch. cbn [timeout advance count_fetch goto arm count_call].
  by rewrite Ht.
Qed.

(** When the error POST is rejected nothing catches the rejection. *)
Lemma error_post_rejected_is_uncaught s req c due dt err more :
  pc s = AwaitErrorPost req c ->
  timeout s = Some due -> (now s + dt < due)%N ->
  endpoint E (fetches s) req = Reject dt err ->
  exists s',
    run P E input (S more) s = (s', [EvRejected req err])
    /\ pc s' = Uncaught err.
Proof.
  intros Hpc Ht Hlt Hreply. cbn [run].
  assert (Hstep : step P E input s
                  = (goto (advance (count_fetch s) dt) (Uncaught err),
                     [EvRejected req err])).
  { unfold step, await_fetch. rewrite Hpc, Hreply.
    by rewrite (await_resumes _ due). }
  rewrite Hstep. cbn [fst snd]. rewrite run_halted by done.
  by eexists.
Qed.

End ErrorDelivery.

(** C6, at the failing input.  In [Worlds.unlucky] the handler throws and
    the error POST is rejected: the rejection is caught nowhere, the script
    ends there with an uncaught exception, and the endpoint, which has a
    second invocation to hand out, is never polled again. *)
Theorem failed_error_delivery_ends_the_loop :
  endpoint Worlds.unlucky 2 poll_request = Resolve 10 (Demo.invocation "abc-2" "{}")
  /\ req_path <$> requests (trace (exec Demo.platform Worlds.unlucky Demo.hello 3))
     = ["/runtime/invocation/next"; "/runtime/invocation/abc-1/error"]
  /\ pc (exec Demo.platform Worlds.unlucky Demo.hello 3).1 = Uncaught Worlds.reset
  /\ exec Demo.platform Worlds.unlucky Demo.hello 10
     = exec Demo.platform Worlds.unlucky Demo.hello 3.
Proof. by vm_compute. Qed.

(** ** Handler resolution *)

Lemma find_first {A} (p : A -> bool) (l : list A) i x :
  l !! i = Some x -> p x = true ->
  (forall j y, j < i -> l !! j = Some y -> p y = false) ->
  List.find p l = Some x.
Proof.
  revert i; induction l as [|a l IH]; intros i Hi Hx Hbefore; [done|].
  destruct i as [|i]; cbn in *.
  - simplify_eq. by rewrite Hx.
  - rewrite (Hbefore 0 a) by (done || lia).
    apply (IH i); [done..|]. intros j y Hj Hy. apply (Hbefore (S j)); [lia|done].
Qed.

Lemma append_assoc (a b c : string) : (a +:+ b) +:+ c = a +:+ b +:+ c.
Proof.
  induction a as [|x a IH]; [reflexivity|].
  change (String x ((a +:+ b) +:+ c) = String x (a +:+ b +:+ c)). by f_equal.
Qed.

Lemma find_spec {A} (p : A -> bool) (l : list A) x :
  List.find p l = Some x
  <-> exists i, l !! i = Some x /\ p x = true
                /\ forall j y, j < i -> l !! j = Some y -> p y = false.
Proof.
  split; [|intros (i & Hi & Hx & Hbefore); by apply (find_first _ _ i)].
  induction l as [|a l IH]; [done|]. cbn [List.find].
  destruct (p a) eqn:Ha.
  - intros [= <-]. exists 0. split; [done|]. split; [done|]. intros; lia.
  - intros (i & Hi & Hx & Hbefore)%IH. exists (S i).
    split; [done|]. split; [done|].
    intros [|j] y Hj Hy; cbn in Hy; [by simplify_eq|].
    apply (Hbefore j); [lia|done].
Qed.

Lemma find_none {A} (p : A -> bool) (l : list A) :
  List.find p l = None <-> forall y, y ∈ l -> p y = false.
Proof.
  induction l as [|a l IH]; cbn [List.find].
  - split; [|done]. intros _ y Hy. by apply elem_of_nil in Hy.
  - destruct (p a) eqn:Ha.
    + split; [done|]. intros Hall. rewrite (Hall a) in Ha; [done|].
      apply list_elem_of_here.
    + rewrite IH. split.
      * intros Hall y [->|Hy]%elem_of_cons; [done|by apply Hall].
      * intros Hall y Hy. apply Hall. by apply list_elem_of_further.
Qed.


Lemma property_absent (m : Module) h : h ∉ m.*1 -> property m h = None.
Proof.
  induction m as [|[k v] m IH]; intros Hout; [done|].
  cbn [fmap list_fmap fst] in Hout. apply not_elem_of_cons in Hout as [Hne Hout].
  cbn [property]. destruct (String.eqb_spec k h) as [->|_]; [done|by apply IH].
Qed.





(** ** Startup *)

Section Startup.

Context (P : Platform) (E : Env) (input : Input).

Lemma startup_fails_load :
  startup_fails P E input ->
  exists message stack, load P E input = inl (ThrownObj message stack).
Proof.
  unfold startup_fails, load.
  intros [Hnone | [(f & message & stack & Hf & Himport)
                  | (f & m & h & Hf & Himport & Hnamed & Hout)]].
  - assert (Hfile : file P E input = None) by (apply find_none; exact Hnone).
    rewrite Hfile. by eexists _, _.
  - assert (Hfile : file P E input = Some f) by (apply find_spec; exact Hf).
    rewrite Hfile, Himport. by eexists _, _.
  - assert (Hfile : file P E input = Some f) by (apply find_spec; exact Hf).
    rewrite Hfile, Himport.
    assert (Hh : substring1 (ext (parsed P input)) = h).
    { unfold export_named in Hnamed. unfold parsed.
      by destruct (ext (path_parse P (handler input))). }
    rewrite Hh, property_absent by done. by eexists _, _.
Qed.

(** While the init-error report is awaited nothing else goes out, and the
    script ends as soon as the report settles. *)
Lemma run_init_error s req fuel :
  pc s = AwaitInitError req -> timeout s = None ->
  requests (run P E input fuel s).2 = []
  /\ (endpoint E (fetches s) req <> Pending ->
      exit_status (pc (run P E input (S fuel) s).1) = Some 1%Z).
Proof.
  intros Hpc Ht.
  assert (Hstep : requests (step P E input s).2 = []
                  /\ phase (pc (step P E input s).1) = None
                  /\ (endpoint E (fetches s) req <> Pending ->
                      exit_status (pc (step P E input s).1) = Some 1%Z)).
  { unfold step, await_fetch. rewrite Hpc.
    destruct (endpoint E (fetches s) req); unfold await; cbn; by rewrite Ht. }
  destruct Hstep as (Hreq & Hhalt & Hexit). split.
  - destruct fuel as [|fuel]; [done|]. cbn [run emit fst snd].
    by rewrite run_halted, app_nil_r.
  - intros Hsettles. cbn [run emit fst snd]. rewrite run_halted by done.
    by apply Hexit.
Qed.

End Startup.

(** C7 (as the code has it). Startup failure: when no probe exists, or
    the loader throws an error object (what it throws is neither [null] nor
    [undefined], and its [stack] is a string or absent), or the module
    lacks the named export, the only request the script ever sends is one
    POST of the error to [/runtime/init/error], so it never polls, and once
    that POST settles the process has ended with status 1: through
    [process.exit(1)] when the POST is answered, through the uncaught
    rejection when it fails. *)
Theorem startup_failure_reports_once P E input fuel :
  serialises_reports P ->
  startup_fails P E input ->
  exists message stack text,
    load P E input = inl (ThrownObj message stack)
    /\ JSON_stringify P (error_object message stack) = inr (Some text)
    /\ requests (trace (exec P E input fuel))
       = [post "/runtime/init/error" (Some text)]
    /\ (endpoint E 0 (post "/runtime/init/error" (Some text)) <> Pending ->
        exit_status (pc (exec P E input (S fuel)).1) = Some 1%Z).
Proof.
  intros Hlaw Hfails.
  destruct (startup_fails_load P E input Hfails) as (message & stack & Hload).
  destruct (Hlaw message stack) as [text Htext].
  exists message, stack, text. split; [done|]. split; [done|].
  assert (Hstart : start P E input
                   = (goto (boot ExFalsy) (AwaitInitError (post "/runtime/init/error" (Some text))),
                      [EvRequest (url input +:+ "/runtime/init/error")
                                 (post "/runtime/init/error" (Some text))])).
  { unfold start, report. rewrite Hload. cbn [error_payload]. by rewrite Htext. }
  unfold exec, trace. rewrite Hstart. cbn [emit fst snd].
  split.
  - rewrite requests_app.
    destruct (run_init_error P E input
                (goto (boot ExFalsy) (AwaitInitError (post "/runtime/init/error" (Some text))))
                _ fuel eq_refl eq_refl) as [-> _].
    done.
  - intros Hsettles.
    by apply (run_init_error P E input
                (goto (boot ExFalsy) (AwaitInitError (post "/runtime/init/error" (Some text))))
                _ fuel eq_refl eq_refl).
Qed.

(** On an empty disk the script reports once and leaves with status 1. *)
Lemma startup_failure_reports_once_witness :
  exists message stack text,
    load Demo.platform Worlds.empty_disk Demo.hello = inl (ThrownObj message stack)
    /\ JSON_stringify Demo.platform (error_object message stack) = inr (Some text)
    /\ requests (trace (exec Demo.platform Worlds.empty_disk Demo.hello 5))
       = [post "/runtime/init/error" (Some text)]
    /\ exit_status (pc (exec Demo.platform Worlds.empty_disk Demo.hello 6).1)
       = Some 1%Z.
Proof.
  destruct (startup_failure_reports_once Demo.platform Worlds.empty_disk
              Demo.hello 5 demo_serialises_reports
              (or_introl (fun g _ => eq_refl)))
    as (message & stack & text & Hload & Htext & Hreq & Hexit).
  exists message, stack, text.
  split; [exact Hload|]. split; [exact Htext|]. split; [exact Hreq|].
  apply Hexit. discriminate.
Defined.

(** C7 as stated fails: in [Cases.poisoned] the file exists and loading
    it throws [null]; reading [ex.message] then throws inside the [catch],
    so that no init-error report is sent; the script ends there with an
    uncaught TypeError.  The same holds in [Cases.odd], where what is thrown
    has a [stack] that cannot be split. *)
Lemma unusable_load_failure_is_not_reported :
  file Demo.platform Cases.poisoned Demo.hello = Some "/build/api/hello.js"
  /\ import Cases.poisoned "file:///build/api/hello.js" = inl ThrownNullish
  /\ requests (trace (exec Demo.platform Cases.poisoned Demo.hello 5)) = []
  /\ pc (exec Demo.platform Cases.poisoned Demo.hello 5).1
     = Uncaught (ThrownObj (Some "Cannot read properties of null")
                           (Some "Error: Cannot read properties of null"))
  /\ import Cases.odd "file:///build/api/hello.js"
     = inl (ThrownOddStack (Some "odd"))
  /\ requests (trace (exec Demo.platform Cases.odd Demo.hello 5)) = []
  /\ pc (exec Demo.platform Cases.odd Demo.hello 5).1
     = Uncaught (ThrownObj (Some "ex.stack?.split is not a function")
                           (Some "Error: ex.stack?.split is not a function")).
Proof. by vm_compute. Qed.

Example startup_failure_empty_disk :
  pc (exec Demo.platform Worlds.empty_disk Demo.hello 1).1 = Exited 1
  /\ req_path <$> requests (trace (exec Demo.platform Worlds.empty_disk Demo.hello 1))
     = ["/runtime/init/error"].
Proof. by vm_compute. Qed.

(** ** A resolved poll *)

(** C8 (as the code has it). The event argument of the handler is the
    result of [JSON.parse] applied to the raw body of the poll response, not
    the raw body; the context carries [awsRequestId] and
    [invokedFunctionArn] taken verbatim from the two response headers. *)
Theorem handler_receives_parsed_body P E input s req dt result request :
  pc s = AwaitPoll req ->
  endpoint E (fetches s) req = Resolve dt result ->
  (forall due, timeout s = Some due -> (now s + dt < due)%N) ->
  JSON_parse P (body result) = inr request ->
  let context :=
    {| awsRequestId := headers result !! "lambda-runtime-aws-request-id";
       invokedFunctionArn := headers result !! "lambda-runtime-invoked-function-arn" |} in
  trace (step P E input s) = [EvResolved req result; EvInvoke request context]
  /\ pc (step P E input s).1 = AwaitHandler request context.
Proof.
  intros Hpc Hreply Hlt Hparse context. unfold step, await_fetch, trace.
  rewrite Hpc, Hreply. on_await.
  - exfalso. cbn in *. pose proof (H0 dt eq_refl). specialize (Hlt _ H). lia.
  - simplify_eq. unfold polled. by rewrite Hparse.
  - done.
Qed.

(** The first poll of [Worlds.friendly]: body [{}], request id [abc-1]. *)
Lemma handler_receives_parsed_body_witness :
  trace (step Demo.platform Worlds.friendly Demo.hello
           (exec Demo.platform Worlds.friendly Demo.hello 0).1)
  = [EvResolved poll_request (Demo.invocation "abc-1" "{}");
     EvInvoke (VObj []) Worlds.abc1]
  /\ pc (step Demo.platform Worlds.friendly Demo.hello
           (exec Demo.platform Worlds.friendly Demo.hello 0).1).1
     = AwaitHandler (VObj []) Worlds.abc1.
Proof.
  apply (handler_receives_parsed_body Demo.platform Worlds.friendly Demo.hello
           (exec Demo.platform Worlds.friendly Demo.hello 0).1
           poll_request 10 (Demo.invocation "abc-1" "{}") (VObj [])).
  - reflexivity.
  - reflexivity.
  - intros due Hdue. vm_compute in Hdue. simplify_eq. reflexivity.
  - reflexivity.
Defined.

(** C8 as stated fails: the poll of [Worlds.one] is answered with the body
    [1]; the handler is called with the number 1, not with that text. *)
Lemma event_is_parsed_not_raw :
  endpoint Worlds.one 0 poll_request = Resolve 10 (Demo.invocation "abc-1" "1")
  /\ invocations (trace (exec Demo.platform Worlds.one Demo.hello 1))
     = [(VNum 1, Worlds.abc1)]
  /\ VNum 1 <> VStr (body (Demo.invocation "abc-1" "1")).
Proof. by vm_compute. Qed.


(** ** A poll answered with what is not JSON *)

(** C10. A poll that is answered, with a body that [JSON.parse] rejects, is
    dropped: the script sends neither an error nor a response for it, the
    next thing it sends is the next poll, at once, and apart from the way
    the poll settled it goes on exactly as after a poll that failed in
    transport. *)
Theorem unparsable_poll_is_dropped P E E' input fuel req dt result ex err :
  let s := (exec P E input fuel).1 in
  pc s = AwaitPoll req ->
  endpoint E (fetches s) req = Resolve dt result ->
  (dt < WATCHDOG_MS)%N ->
  JSON_parse P (body result) = inl ex ->
  endpoint E' (fetches s) req = Reject dt err ->
  step P E input s
  = ((iterate input (advance (count_fetch s) dt)).1,
     [EvResolved req result; EvClearTimeout; EvSetTimeout WATCHDOG_MS;
      EvRequest (url input +:+ "/runtime/invocation/next") poll_request])
  /\ step P E' input s
     = ((iterate input (advance (count_fetch s) dt)).1,
        [EvRejected req err; EvClearTimeout; EvSetTimeout WATCHDOG_MS;
         EvRequest (url input +:+ "/runtime/invocation/next") poll_request])
  /\ now (step P E input s).1 = (now s + dt)%N.
Proof.
  intros s Hpc Hreply Hdt Hparse Hreply'.
  pose proof (wf_exec P E input fuel) as Hwf. fold s in Hwf.
  unfold wf in Hwf. rewrite Hpc in Hwf. destruct Hwf as [-> Ht].
  assert (Hresume : forall k, await (count_fetch s) (Some dt) k
                              = k (advance (count_fetch s) dt)).
  { intros k. apply (await_resumes _ (now s + WATCHDOG_MS)); [done|cbn; lia]. }
  unfold step, await_fetch. rewrite Hpc, Hreply, Hreply', !Hresume.
  unfold polled. rewrite Hparse. unfold iterate, fetch.
  cbn [timeout advance count_fetch arm]. rewrite Ht. done.
Qed.

(** The first poll of [Worlds.garbled] is answered with [oops]; in
    [Worlds.unreachable] it fails. *)
Lemma unparsable_poll_is_dropped_witness :
  req_path <$> requests (trace (step Demo.platform Worlds.garbled Demo.hello
                         (exec Demo.platform Worlds.garbled Demo.hello 0).1))
  = ["/runtime/invocation/next"]
  /\ now (step Demo.platform Worlds.garbled Demo.hello
            (exec Demo.platform Worlds.garbled Demo.hello 0).1).1 = 10%N.
Proof.
  destruct (unparsable_poll_is_dropped Demo.platform Worlds.garbled
              (Demo.world Worlds.returns_ok (fun _ _ => Reject 10 Worlds.reset))
              Demo.hello 0 poll_request 10 (Demo.invocation "abc-1" "oops")
              Demo.syntax_error Worlds.reset)
    as (Hstep & _ & Hnow);
    [reflexivity|reflexivity|reflexivity|reflexivity|reflexivity|].
  split; [|exact Hnow]. unfold trace. rewrite Hstep. reflexivity.
Defined.


(** * Further properties of the script *)

(** ** One request at a time *)

Section Outstanding.

Context (P : Platform) (E : Env) (input : Input).

Local Ltac peel :=
  simplify_eq;
  cbn [emit fst snd app accepts after fold_left
       outstanding_check outstanding_next andb];
  rewrite ?bool_decide_true by done;
  cbn [andb].






End Outstanding.


Example one_at_a_time_refuses_pipelining :
  one_at_a_time [EvRequest "" poll_request; EvRequest "" poll_request] = false
  /\ one_at_a_time [EvRequest "" poll_request;
                    EvResolved (post "/x" None) (Demo.ok "")] = false.
Proof. by vm_compute. Qed.

(** ** One watchdog at a time *)

Section Timers.

Context (P : Platform) (E : Env) (input : Input).

Lemma timer_iterate m s :
  timer_at m s ->
  accepts timer_check timer_next m (iterate input s).2 = true
  /\ timer_at (after timer_next m (iterate input s).2) (iterate input s).1.
Proof.
  unfold timer_at, iterate. intros ->.
  destruct (timeout s); cbn; rewrite N.eqb_refl; done.
Qed.

Lemma timer_quiet m s s' evs :
  timer_at m s -> timeout s' = timeout s ->
  Forall (fun e => match e with
                   | EvClearTimeout => False
                   | EvSetTimeout ms => ms <> WATCHDOG_MS
                   | _ => True
                   end) evs ->
  accepts timer_check timer_next m evs = true
  /\ timer_at (after timer_next m evs) s'.
Proof.
  intros Hm Ht Hq. revert m Hm.
  induction Hq as [|e evs He _ IH]; intros m Hm.
  - split; [done|]. unfold timer_at in *. by rewrite Ht.
  - cbn [accepts after fold_left].
    assert (Hcheck : timer_check m e = true /\ timer_next m e = m).
    { destruct e; try done. cbn. by rewrite (proj2 (N.eqb_neq _ _) He). }
    destruct Hcheck as [-> ->]. by apply IH.
Qed.

Lemma timer_step m s :
  timer_at m s ->
  accepts timer_check timer_next m (step P E input s).2 = true
  /\ timer_at (after timer_next m (step P E input s).2) (step P E input s).1.
Proof.
  intros Hm. unfold step, await_fetch.
  destruct (pc s) as [req|req|request c|req c|req response c|response c|code|ex|]
    eqn:Hpc;
    try destruct (endpoint E (fetches s) req) as [dt res|dt err|];
    try destruct (call P (fn s) (calls s) request c) as [dt v|dt ex| | |c' dt o];
    try on_await; simplify_eq.
  all: try (apply (timer_quiet m s); [done|done|repeat constructor; done]).
  all: try (cbn [emit fst snd app accepts after fold_left timer_check timer_next andb];
            apply timer_iterate; done).
  - unfold polled. destruct (JSON_parse P (body res)).
    + cbn [emit fst snd app accepts after fold_left timer_check timer_next andb].
      by apply timer_iterate.
    + apply (timer_quiet m s); [done|done|repeat constructor; done].
  - unfold deliver, retry_later, fetch. destruct (JSON_stringify P v);
      apply (timer_quiet m s); [done|done|repeat constructor; done..].
  - unfold report, fetch. destruct (error_payload P ex) as [ex'|payload];
      [|destruct (JSON_stringify P payload)];
      apply (timer_quiet m s); [done|done|repeat constructor; done..].
  - destruct o as [v|ex]; cbn [settled].
    + unfold deliver, retry_later, fetch. destruct (JSON_stringify P v);
        apply (timer_quiet m s); [done|done|repeat constructor; done..].
    + unfold report, fetch. destruct (error_payload P ex) as [ex'|payload];
        [|destruct (JSON_stringify P payload)];
        apply (timer_quiet m s); [done|done|repeat constructor; done..].
  - unfold deliver, retry_later, fetch. destruct (JSON_stringify P response);
      apply (timer_quiet m s); [done|done|repeat constructor; done..].
Qed.

End Timers.

Lemma timer_start P E input :
  accepts timer_check timer_next false (start P E input).2 = true
  /\ timer_at (after timer_next false (start P E input).2) (start P E input).1.
Proof.
  unfold start. destruct (load P E input) as [ex|f].
  - unfold report, fetch. destruct (error_payload P ex) as [ex'|payload];
      [|destruct (JSON_stringify P payload)];
      apply (timer_quiet false (boot ExFalsy)); [done|done|repeat constructor; done..].
  - by apply timer_iterate.
Qed.

(** X2. In every execution the watchdog timer is set only while no watchdog
    is armed, and [clearTimeout] is called only on an armed one: watchdog
    timers never pile up. *)
Theorem one_watchdog_at_a_time P E input fuel :
  one_watchdog (trace (exec P E input fuel)) = true.
Proof.
  destruct (timer_start P E input) as [Hacc HR].
  apply (monitored_exec P E input timer_check timer_next timer_at);
    [intros m s _; apply timer_step|done..].
Qed.

Example one_watchdog_refuses_a_leak :
  one_watchdog [EvSetTimeout WATCHDOG_MS; EvSetTimeout 500;
                EvSetTimeout WATCHDOG_MS] = false
  /\ one_watchdog [EvSetTimeout WATCHDOG_MS; EvSetTimeout 500; EvClearTimeout;
                   EvSetTimeout WATCHDOG_MS] = true.
Proof. by vm_compute. Qed.

(** ** One channel per invocation *)

Section Channels.

Context (P : Platform) (E : Env) (input : Input).

Local Ltac peel :=
  simplify_eq;
  cbn [emit fst snd app accepts after fold_left
       channel_check channel_next andb].






End Channels.


Example one_channel_refuses_both :
  one_channel [EvInvoke VNull Worlds.abc1; EvThrew Worlds.boom;
               EvRequest "" (post (error_path Worlds.abc1) None);
               EvRequest "" (post (response_path Worlds.abc1) None)] = false
  /\ one_channel [EvInvoke VNull Worlds.abc1; EvReturned VNull;
                  EvRequest "" (post (error_path Worlds.abc1) None)] = false
  /\ one_channel [EvInvoke VNull Worlds.abc1;
                  EvRequest "" (post (response_path Worlds.abc1) None)] = false.
Proof. by vm_compute. Qed.

(** ** The four operations *)

Section Operations.

Context (P : Platform) (E : Env) (input : Input).







End Operations.


(** ** Exit codes and the handler reference *)

Section Modes.

Context (P : Platform) (E : Env) (input : Input).

Lemma init_mode_step s : init_mode s -> init_mode (step P E input s).1.
Proof.
  intros (Ht & Hfn & Hpc). unfold step, await_fetch.
  destruct (pc s) as [req|req|request c|req c|req response c|response c|code|ex|]
    eqn:Heq; try done.
  - destruct (endpoint E (fetches s) req); unfold await; cbn [timeout count_fetch];
      rewrite Ht; done.
  - unfold init_mode. cbn [fst]. by rewrite Heq.
  - unfold init_mode. cbn [fst]. by rewrite Heq.
  - unfold init_mode. cbn [fst]. by rewrite Heq.
Qed.

Lemma loop_mode_iterate f s : fn s = f -> loop_mode f (iterate input s).1.
Proof. intros Hfn. unfold iterate, loop_mode; cbn. by eauto. Qed.

Lemma loop_mode_step f s : loop_mode f s -> loop_mode f (step P E input s).1.
Proof.
  intros ([due Ht] & Hfn & Hpc). unfold step, await_fetch.
  assert (Hw : forall s1, timeout s1 = timeout s -> fn s1 = fn s ->
                          loop_mode f (watchdog s1 due).1)
    by (intros s1 H1 H2; unfold loop_mode; cbn; rewrite H1, H2, Ht; eauto).
  destruct (pc s) as [req|req|request c|req c|req response c|response c|code|ex|]
    eqn:Heq; try done;
    try destruct (endpoint E (fetches s) req) as [dt res|dt err|];
    try destruct (call P (fn s) (calls s) request c) as [dt v|dt ex| | |c' dt o];
    try (on_await; [simplify_eq; by apply Hw|..|cbn in *; congruence]);
    cbn [emit fst]; try (by apply loop_mode_iterate);
    try (unfold loop_mode; cbn; rewrite Ht; by eauto).
  - unfold polled. destruct (JSON_parse P (body res));
      [by apply loop_mode_iterate|unfold loop_mode; cbn; rewrite Ht; by eauto].
  - unfold deliver. destruct (JSON_stringify P v);
      unfold loop_mode; cbn; rewrite Ht; by eauto.
  - unfold report. destruct (error_payload P ex) as [ex'|payload];
      [|destruct (JSON_stringify P payload)];
      unfold loop_mode; cbn; rewrite Ht; by eauto.
  - unfold loop_mode. cbn [fst]. rewrite Heq, Ht. by eauto.
  - destruct o as [v|ex]; cbn [settled emit fst].
    + unfold deliver. destruct (JSON_stringify P v);
        unfold loop_mode; cbn; rewrite Ht; by eauto.
    + unfold report. destruct (error_payload P ex) as [ex'|payload];
        [|destruct (JSON_stringify P payload)];
        unfold loop_mode; cbn; rewrite Ht; by eauto.
  - unfold deliver. destruct (JSON_stringify P response);
      unfold loop_mode; cbn; rewrite Ht; by eauto.
  - unfold loop_mode. cbn [fst]. rewrite Heq, Ht. by eauto.
  - unfold loop_mode. cbn [fst]. rewrite Heq, Ht. by eauto.
Qed.

Lemma mode_start : mode (load P E input) (start P E input).1.
Proof.
  unfold start, mode. destruct (load P E input) as [ex|f].
  - unfold report. destruct (error_payload P ex) as [ex'|payload];
      [|destruct (JSON_stringify P payload)]; done.
  - by apply loop_mode_iterate.
Qed.

Lemma mode_exec fuel : mode (load P E input) (exec P E input fuel).1.
Proof.
  induction fuel as [|fuel IH].
  - unfold exec. cbn [run emit fst]. apply mode_start.
  - rewrite exec_S. cbn [emit fst]. unfold mode in *.
    destruct (load P E input); [by apply init_mode_step|by apply loop_mode_step].
Qed.

End Modes.

(** X5. The exit code tells what happened: in every execution
    [process.exit(1)] is reached only when handler resolution failed, and
    [process.exit(0)] only after the loop was entered; no other code is
    used. *)
Theorem exit_code_tells_the_mode P E input fuel code :
  pc (exec P E input fuel).1 = Exited code ->
  (code = 1%Z /\ exists ex, load P E input = inl ex)
  \/ (code = 0%Z /\ exists f, load P E input = inr f).
Proof.
  intros Hpc. pose proof (mode_exec P E input fuel) as Hmode.
  unfold mode in Hmode. destruct (load P E input) as [ex|f].
  - left. destruct Hmode as (_ & _ & Hcode). rewrite Hpc in Hcode. eauto.
  - right. destruct Hmode as (_ & _ & Hcode). rewrite Hpc in Hcode. eauto.
Qed.

(** On an empty disk the script leaves with code 1: resolution failed. *)
Lemma exit_code_tells_the_mode_witness :
  exists ex, load Demo.platform Worlds.empty_disk Demo.hello = inl ex.
Proof.
  destruct (exit_code_tells_the_mode Demo.platform Worlds.empty_disk Demo.hello
              1 1 eq_refl) as [[_ Hfailed]|[Hcode _]].
  - exact Hfailed.
  - discriminate Hcode.
Defined.

(** X6. The handler reference is fixed at startup: in every state of every
    execution [fn] is the export that handler resolution returned, and
    undefined when resolution failed. *)
Theorem handler_reference_is_immutable P E input fuel :
  fn (exec P E input fuel).1
  = match load P E input with
    | inr f => f
    | inl _ => ExFalsy
    end.
Proof.
  pose proof (mode_exec P E input fuel) as Hmode. unfold mode in Hmode.
  destruct (load P E input); by destruct Hmode as (_ & ? & _).
Qed.

(** ** The ambient request id *)

Section Ambient.

Context (P : Platform) (E : Env) (input : Input).

Lemma latest_request_id_app d t1 t2 :
  latest_request_id d (t1 ++ t2)
  = latest_request_id (latest_request_id d t1) t2.
Proof.
  unfold latest_request_id, invocations. rewrite omap_app, last_app.
  by destruct (last (omap _ t2)) as [[??]|].
Qed.

Lemma global_iterate s :
  global_requestId (iterate input s).1
  = latest_request_id (global_requestId s) (iterate input s).2.
Proof. unfold iterate. by destruct (timeout s). Qed.

Lemma global_step s :
  global_requestId (step P E input s).1
  = latest_request_id (global_requestId s) (step P E input s).2.
Proof.
  unfold step, await_fetch.
  destruct (pc s) as [req|req|request c|req c|req response c|response c|code|ex|];
    try destruct (endpoint E (fetches s) req) as [dt res|dt err|];
    try destruct (call P (fn s) (calls s) request c) as [dt v|dt ex| | |c' dt o];
    try on_await; try done; cbn [emit fst snd];
    rewrite ?(latest_request_id_app _ [_]);
    try apply (global_iterate (advance (count_fetch s) _)).
  - unfold polled. destruct (JSON_parse P (body res)); [|done].
    apply (global_iterate (advance (count_fetch s) _)).
  - unfold deliver. by destruct (JSON_stringify P v).
  - unfold report. destruct (error_payload P ex) as [ex'|payload]; [done|].
    by destruct (JSON_stringify P payload).
  - destruct o as [v|ex]; cbn [settled emit fst snd];
      rewrite ?(latest_request_id_app _ [_]).
    + unfold deliver. by destruct (JSON_stringify P v).
    + unfold report. destruct (error_payload P ex) as [ex'|payload]; [done|].
      by destruct (JSON_stringify P payload).
  - unfold deliver. by destruct (JSON_stringify P response).
Qed.

Lemma global_start :
  global_requestId (start P E input).1 = latest_request_id None (start P E input).2.
Proof.
  unfold start. destruct (load P E input) as [ex|f]; [|apply global_iterate].
  unfold report. destruct (error_payload P ex) as [ex'|payload]; [done|].
  by destruct (JSON_stringify P payload).
Qed.

End Ambient.

(** X7. The global of lines 114-115 always holds the request id of the
    latest handler call: it is set before each call, is still undefined
    before the first one, and keeps the id of the last invocation while the
    script polls. *)
Theorem ambient_request_id P E input fuel :
  global_requestId (exec P E input fuel).1
  = latest_request_id None (trace (exec P E input fuel)).
Proof.
  induction fuel as [|fuel IH].
  - unfold exec, trace. cbn [run emit fst snd]. rewrite app_nil_r.
    apply global_start.
  - rewrite exec_S. unfold trace in *. cbn [emit fst snd].
    by rewrite latest_request_id_app, <- IH, global_step.
Qed.

Example ambient_request_id_friendly :
  global_requestId (exec Demo.platform Worlds.friendly Demo.hello 0).1 = None
  /\ global_requestId (exec Demo.platform Worlds.friendly Demo.hello 3).1
     = Some "abc-1".
Proof. by vm_compute. Qed.

(** ** What a handler can throw or return *)

Section Edges.

Context (P : Platform) (E : Env) (input : Input).

Lemma run_then_halted s s' evs more :
  step P E input s = (s', evs) -> phase (pc s') = None ->
  run P E input (S more) s = (s', evs).
Proof.
  intros Hstep Hhalt. cbn [run]. rewrite Hstep. cbn [fst snd].
  rewrite run_halted by done. unfold emit. cbn. by rewrite app_nil_r.
Qed.

End Edges.

(** X8. A handler that throws [null] or [undefined] ends the script: reading
    [ex.message] at line 128 throws inside the [catch], so no error report
    is sent and the exception leaves the module uncaught. *)
Theorem nullish_throw_is_fatal P E input s request c dt due more :
  pc s = AwaitHandler request c ->
  call P (fn s) (calls s) request c = Throw dt ThrownNullish ->
  timeout s = Some due -> (now s + dt < due)%N ->
  exists s',
    run P E input (S more) s = (s', [EvThrew ThrownNullish])
    /\ pc s' = Uncaught (new_Error P (nullish_read P)).
Proof.
  intros Hpc Hcall Ht Hlt.
  exists (goto (advance (count_call s) dt) (Uncaught (new_Error P (nullish_read P)))).
  split; [|reflexivity]. apply run_then_halted; [|reflexivity].
  unfold step. rewrite Hpc, Hcall.
  by rewrite (await_resumes _ due) by (done || cbn; lia).
Qed.

(** A handler that throws [null] in [Cases.throws_null]. *)
Lemma nullish_throw_is_fatal_witness :
  exists s',
    run Demo.platform Cases.throws_null Demo.hello 3
        (exec Demo.platform Cases.throws_null Demo.hello 1).1
    = (s', [EvThrew ThrownNullish])
    /\ pc s' = Uncaught (new_Error Demo.platform (nullish_read Demo.platform)).
Proof.
  apply (nullish_throw_is_fatal Demo.platform Cases.throws_null Demo.hello
           (exec Demo.platform Cases.throws_null Demo.hello 1).1
           (VObj []) Worlds.abc1 5 900000 2);
    reflexivity.
Defined.

(** X9. An export that is truthy but not a function passes startup, and
    then every invocation fails at once: the call throws a TypeError, which
    is reported on the invocation's error path without any time passing. *)
Theorem non_callable_export_is_reported P E input fuel f request c :
  serialises_reports P ->
  load P E input = inr f -> (forall g, f <> ExFunction g) ->
  pc (exec P E input fuel).1 = AwaitHandler request c ->
  exists text,
    JSON_stringify P (error_object (Some (not_callable P))
                        (Some (capture_stack P (not_callable P)))) = inr (Some text)
    /\ trace (step P E input (exec P E input fuel).1)
       = [EvThrew (new_Error P (not_callable P));
          EvRequest (url input +:+ error_path c) (post (error_path c) (Some text))]
    /\ now (step P E input (exec P E input fuel).1).1 = now (exec P E input fuel).1.
Proof.
  intros Hlaw Hload Hf Hpc.
  destruct (Hlaw (Some (not_callable P)) (Some (capture_stack P (not_callable P))))
    as [text Htext].
  exists text. split; [done|].
  pose proof (handler_reference_is_immutable P E input fuel) as Hfn.
  rewrite Hload in Hfn.
  pose proof (wf_exec P E input fuel) as Hwf. unfold wf in Hwf.
  rewrite Hpc in Hwf. destruct Hwf as (due & Ht & Hdue).
  generalize dependent (exec P E input fuel).1. intros s Hpc Hfn Ht Hdue.
  assert (Hcall : call P (fn s) (calls s) request c
                  = Throw 0 (new_Error P (not_callable P))).
  { rewrite Hfn. destruct f; try done. by destruct (Hf f). }
  unfold step, trace. rewrite Hpc, Hcall.
  rewrite (await_resumes _ due) by (done || cbn [now count_call]; lia).
  unfold report, new_Error. cbn [error_payload]. rewrite Htext.
  unfold fetch. cbn. split; [done|lia].
Qed.

(** In [Cases.not_a_function] the export is an object. *)
Lemma non_callable_export_is_reported_witness :
  exists text,
    JSON_stringify Demo.platform
      (error_object (Some (not_callable Demo.platform))
         (Some (capture_stack Demo.platform (not_callable Demo.platform))))
    = inr (Some text)
    /\ trace (step Demo.platform Cases.not_a_function Demo.hello
                (exec Demo.platform Cases.not_a_function Demo.hello 1).1)
       = [EvThrew (new_Error Demo.platform (not_callable Demo.platform));
          EvRequest (url Demo.hello +:+ error_path Worlds.abc1)
                    (post (error_path Worlds.abc1) (Some text))]
    /\ now (step Demo.platform Cases.not_a_function Demo.hello
              (exec Demo.platform Cases.not_a_function Demo.hello 1).1).1
       = now (exec Demo.platform Cases.not_a_function Demo.hello 1).1.
Proof.
  apply (non_callable_export_is_reported Demo.platform Cases.not_a_function
           Demo.hello 1 ExObject (VObj []) Worlds.abc1).
  - exact demo_serialises_reports.
  - reflexivity.
  - discriminate.
  - reflexivity.
Defined.

Lemma property_in_keys m h v : property m h = Some v -> h ∈ keys m.
Proof.
  induction m as [|[k x] m IH]; [done|]. cbn [property keys fmap list_fmap fst].
  destruct (String.eqb_spec k h) as [->|_].
  - intros _. apply list_elem_of_here.
  - intros Hm. apply list_elem_of_further, IH, Hm.
Qed.

(** X10. An export that exists but is falsy counts as missing: startup
    fails with the not-found error, although the list of exports found that
    the message ends with contains that very name. *)
Theorem falsy_export_is_not_found P E input f m :
  file P E input = Some f ->
  import E (pathToFileURL P f) = inr m ->
  property m (substring1 (ext (parsed P input))) = Some ExFalsy ->
  load P E input
  = inl (new_Error P (not_found_message input
                        (substring1 (ext (parsed P input))) m))
  /\ substring1 (ext (parsed P input)) ∈ keys m.
Proof.
  intros Hfile Himport Hprop. split.
  - unfold load. by rewrite Hfile, Himport, Hprop.
  - by apply property_in_keys in Hprop.
Qed.

(** In [Cases.null_export] the module exports [handler := null]. *)
Lemma falsy_export_is_not_found_witness :
  load Demo.platform Cases.null_export Demo.hello
  = inl (new_Error Demo.platform
           ("Function " +:+ dq +:+ "handler" +:+ dq +:+ " not found in "
            +:+ dq +:+ "api/hello.handler" +:+ dq +:+ ". Found handler"))
  /\ "handler" ∈ keys [("handler", ExFalsy)].
Proof.
  apply (falsy_export_is_not_found Demo.platform Cases.null_export Demo.hello
           "/build/api/hello.js" [("handler", ExFalsy)]);
    reflexivity.
Defined.

(** ** A result that cannot be serialised *)

Section Spinning.

Context (P : Platform) (E : Env) (input : Input).

Lemma step_slept_again s response c due ex :
  pc s = AwaitSleep response c ->
  timeout s = Some due -> (now s + 500 < due)%N ->
  JSON_stringify P response = inl ex ->
  step P E input s = (goto (advance s 500) (AwaitSleep response c), logged ex).
Proof.
  intros Hpc Ht Hlt Hthrows. unfold step. rewrite Hpc.
  rewrite (await_resumes _ due) by done. unfold deliver. by rewrite Hthrows.
Qed.

Lemma spin k : forall s response c due ex more,
  pc s = AwaitSleep response c ->
  JSON_stringify P response = inl ex ->
  timeout s = Some due ->
  (now s + 500 * N.of_nat k < due <= now s + 500 * N.of_nat (S k))%N ->
  exists s',
    run P E input (k + S more) s
    = (s', concat (replicate k (logged ex)) ++ [EvExit 0])
    /\ pc s' = Exited 0 /\ now s' = due.
Proof.
  induction k as [|k IH]; intros s response c due ex more Hpc Hthrows Ht Hk.
  - cbn [Nat.add replicate concat app].
    apply (run_watchdog P E input more s due Ht).
    + by rewrite Hpc.
    + unfold blocking. by rewrite Hpc.
    + unfold awaited_delay. rewrite Hpc. intros dt [= <-]. lia.
  - cbn [Nat.add]. cbn [run].
    rewrite (step_slept_again s response c due ex) by (done || lia).
    cbn [fst snd].
    destruct (IH (goto (advance s 500) (AwaitSleep response c))
                response c due ex more) as (s' & Hrun & Hexit & Hnow);
      try done.
    + cbn [now goto advance]. lia.
    + exists s'. rewrite Hrun. by cbn.
Qed.

End Spinning.

(** X11. A result that [JSON.stringify] throws on is never POSTed: the throw
    is caught by the retry loop, which logs it and waits 500 ms again and
    again without sending anything, until the watchdog ends the process
    with code 0. *)
Theorem unserialisable_result_is_never_sent P E input s request c dt response
    ex due k more :
  pc s = AwaitHandler request c ->
  call P (fn s) (calls s) request c = Return dt response ->
  JSON_stringify P response = inl ex ->
  timeout s = Some due ->
  (now s + dt + 500 * N.of_nat k < due <= now s + dt + 500 * N.of_nat (S k))%N ->
  exists s',
    run P E input (S k + S more) s
    = (s', [EvReturned response] ++ concat (replicate (S k) (logged ex))
           ++ [EvExit 0])
    /\ pc s' = Exited 0 /\ now s' = due.
Proof.
  intros Hpc Hcall Hthrows Ht Hk.
  assert (Hstep : step P E input s
                  = (goto (advance (count_call s) dt) (AwaitSleep response c),
                     EvReturned response :: logged ex)).
  { unfold step. rewrite Hpc, Hcall.
    rewrite (await_resumes _ due) by (done || cbn [now count_call]; lia).
    unfold deliver. by rewrite Hthrows. }
  cbn [Nat.add run]. rewrite Hstep. cbn [fst snd].
  destruct (spin P E input k
              (goto (advance (count_call s) dt) (AwaitSleep response c))
              response c due ex more) as (s' & Hrun & Hexit & Hnow); try done.
  exists s'. rewrite Hrun. by cbn.
Qed.

(** In [Cases.cyclic] the handler returns at 899 s: two rounds are logged
    and the process leaves at 900 s. *)
Lemma unserialisable_result_is_never_sent_witness :
  exists s',
    run Demo.platform Cases.cyclic Demo.hello 3
        (exec Demo.platform Cases.cyclic Demo.hello 1).1
    = (s', [EvReturned (VOpaque 0)]
           ++ concat (replicate 2 (logged (ThrownObj
                        (Some "Do not know how to serialize")
                        (Some "TypeError: Do not know how to serialize"))))
           ++ [EvExit 0])
    /\ pc s' = Exited 0 /\ now s' = 900000%N.
Proof.
  apply (unserialisable_result_is_never_sent Demo.platform Cases.cyclic Demo.hello
           (exec Demo.platform Cases.cyclic Demo.hello 1).1
           (VObj []) Worlds.abc1 899000 (VOpaque 0) _ 900000 1 0);
    try reflexivity.
  vm_compute. split; [reflexivity|discriminate].
Defined.

(** ** The trace of an error *)

Lemma split_lines_nonempty s : split_lines s <> [].
Proof.
  destruct s as [|c s]; [done|]. cbn [split_lines].
  destruct (Ascii.eqb c "010"); [done|]. by destruct (split_lines s).
Qed.

(** X12. The [trace] of an error report loses nothing of the stack: joining
    the lines that [split] produces with newlines gives the stack back, and
    there is always at least one line. *)
Theorem trace_lines_rebuild_the_stack (stack : string) :
  join (String "010" EmptyString) (split_lines stack) = stack
  /\ split_lines stack <> [].
Proof.
  split; [|apply split_lines_nonempty].
  induction stack as [|c stack IH]; [done|]. cbn [split_lines].
  destruct (Ascii.eqb_spec c "010") as [->|Hc].
  - pose proof (split_lines_nonempty stack) as Hne. unfold join in *.
    destruct (split_lines stack) as [|l ls]; [done|].
    cbn [String.concat]. cbn [String.concat] in IH. by rewrite IH.
  - pose proof (split_lines_nonempty stack) as Hne. unfold join in *.
    destruct (split_lines stack) as [|l ls]; [done|].
    destruct ls as [|l' ls]; cbn [String.concat] in *; by rewrite <- IH.
Qed.

(** ** A handler that returns nothing *)

(** X13. When [JSON.stringify] gives [undefined] for the handler's result
    (the handler returned [undefined]), the response POST still goes out,
    with no body written. *)
Theorem undefined_result_is_posted_empty P E input s request c dt response due :
  pc s = AwaitHandler request c ->
  call P (fn s) (calls s) request c = Return dt response ->
  JSON_stringify P response = inr None ->
  timeout s = Some due -> (now s + dt < due)%N ->
  trace (step P E input s)
  = [EvReturned response;
     EvRequest (url input +:+ response_path c) (post (response_path c) None)]
  /\ pc (step P E input s).1
     = AwaitResponsePost (post (response_path c) None) response c
  /\ written (post (response_path c) None) = None.
Proof.
  intros Hpc Hcall Hnone Ht Hlt.
  rewrite (step_handler_returned P E input s request c due dt response None)
    by done.
  done.
Qed.

(** In [Cases.returns_undefined] the handler returns [undefined]. *)
Lemma undefined_result_is_posted_empty_witness :
  trace (step Demo.platform Cases.returns_undefined Demo.hello
           (exec Demo.platform Cases.returns_undefined Demo.hello 1).1)
  = [EvReturned VUndefined;
     EvRequest (url Demo.hello +:+ response_path Worlds.abc1)
               (post (response_path Worlds.abc1) None)]
  /\ pc (step Demo.platform Cases.returns_undefined Demo.hello
           (exec Demo.platform Cases.returns_undefined Demo.hello 1).1).1
     = AwaitResponsePost (post (response_path Worlds.abc1) None) VUndefined
                         Worlds.abc1
  /\ written (post (response_path Worlds.abc1) None) = None.
Proof.
  apply (undefined_result_is_posted_empty Demo.platform Cases.returns_undefined
           Demo.hello (exec Demo.platform Cases.returns_undefined Demo.hello 1).1
           (VObj []) Worlds.abc1 5 VUndefined 900000);
    reflexivity.
Defined.

(** ** Status codes are not read *)

Section Status.

Context (P : Platform) (E : Env) (input : Input) (code : Z).

Lemma restatus_step s :
  (step P (restatus code E) input s).1 = (step P E input s).1
  /\ requests (step P (restatus code E) input s).2
     = requests (step P E input s).2
  /\ invocations (step P (restatus code E) input s).2
     = invocations (step P E input s).2.
Proof.
  unfold step, await_fetch. cbn [endpoint restatus].
  destruct (pc s) as [req|req|request c|req c|req response c|response c|k|ex|];
    try done;
    destruct (endpoint E (fetches s) req) as [dt res|dt err|]; try done;
    unfold await; cbn [timeout count_fetch now];
    destruct (timeout s) as [due|]; try done;
    try destruct (due <=? now s + dt)%N; try done.
  all: unfold polled; cbn [body headers emit fst snd];
    destruct (JSON_parse P (body res)); done.
Qed.

Lemma restatus_start : start P (restatus code E) input = start P E input.
Proof. reflexivity. Qed.

End Status.

(** X14. The script never reads a status code: with every status code of
    the endpoint's answers replaced by any other, each execution goes
    through the same states, sends the same requests and hands the same
    events and contexts to the handler.  In particular a response POST
    answered with an error status counts as delivered. *)
Theorem status_code_is_ignored P E input code fuel :
  (exec P (restatus code E) input fuel).1 = (exec P E input fuel).1
  /\ requests (trace (exec P (restatus code E) input fuel))
     = requests (trace (exec P E input fuel))
  /\ invocations (trace (exec P (restatus code E) input fuel))
     = invocations (trace (exec P E input fuel)).
Proof.
  induction fuel as [|fuel (IHs & IHr & IHi)].
  - unfold exec. cbn [run]. by rewrite restatus_start.
  - rewrite !exec_S. unfold trace in *. cbn [emit fst snd].
    rewrite IHs. destruct (restatus_step P E input code (exec P E input fuel).1)
      as (Hs & Hr & Hi).
    split; [done|]. unfold invocations in *.
    rewrite !requests_app, !omap_app. by rewrite IHr, IHi, Hr, Hi.
Qed.

Example status_500_counts_as_delivered :
  requests (trace (exec Demo.platform (restatus 500 Worlds.friendly) Demo.hello 3))
  = [poll_request;
     post "/runtime/invocation/abc-1/response" (Some Worlds.ok_text);
     poll_request].
Proof. by vm_compute. Qed.

(** ** Polls that keep failing *)

(** X15. Failed polls are retried at once and without bound: while every
    poll is rejected in less than [WATCHDOG_MS], the script never leaves
    AwaitingInvocation; after [n] failures it has sent [n + 1] polls and
    nothing else. *)
Theorem failing_polls_never_end P E input f fuel :
  load P E input = inr f ->
  (forall n, exists dt err,
     endpoint E n poll_request = Reject dt err /\ (dt < WATCHDOG_MS)%N) ->
  pc (exec P E input fuel).1 = AwaitPoll poll_request
  /\ fetches (exec P E input fuel).1 = fuel
  /\ requests (trace (exec P E input fuel)) = replicate (S fuel) poll_request.
Proof.
  intros Hload Hdown. induction fuel as [|fuel (IHpc & IHn & IHr)].
  - unfold exec, start, trace. rewrite Hload. cbn [run emit fst snd].
    unfold iterate, boot. by cbn.
  - pose proof (wf_exec P E input fuel) as Hwf. unfold wf in Hwf.
    rewrite IHpc in Hwf. destruct Hwf as [_ Ht].
    rewrite exec_S. unfold trace in *. cbn [emit fst snd].
    destruct (Hdown fuel) as (dt & err & Hreply & Hdt).
    generalize dependent (exec P E input fuel). intros [s tr]; cbn [fst snd].
    intros Hpc Hn Hr Ht.
    unfold step, await_fetch. rewrite Hpc, Hn, Hreply.
    rewrite (await_resumes (count_fetch s) _ _ _ Ht)
      by (cbn [now count_fetch]; lia).
    unfold iterate, fetch. cbn [timeout advance count_fetch arm]. rewrite Ht.
    cbn [emit fst snd pc goto fetches arm advance count_fetch].
    split; [done|]. split; [by rewrite Hn|].
    rewrite requests_app, Hr, (replicate_S_end (S fuel)). done.
Qed.

(** [Worlds.unreachable]: every request fails after ten minutes. *)
Lemma failing_polls_never_end_witness :
  pc (exec Demo.platform Worlds.unreachable Demo.hello 7).1 = AwaitPoll poll_request
  /\ fetches (exec Demo.platform Worlds.unreachable Demo.hello 7).1 = 7
  /\ requests (trace (exec Demo.platform Worlds.unreachable Demo.hello 7))
     = replicate 8 poll_request.
Proof.
  apply (failing_polls_never_end Demo.platform Worlds.unreachable Demo.hello
           Worlds.returns_ok 7).
  - reflexivity.
  - intros n. exists 600000%N, Worlds.reset. split; reflexivity.
Defined.

(** ** A loader that throws nothing usable *)

(** X16. When loading the module throws [null] or [undefined], reading
    [ex.message] at line 80 throws inside the [catch]: no init-error report
    is sent, nothing is polled, and the exception leaves the module
    uncaught. *)
Theorem nullish_load_failure_is_not_reported P E input f fuel :
  file P E input = Some f ->
  import E (pathToFileURL P f) = inl ThrownNullish ->
  exec P E input fuel
  = (goto (boot ExFalsy) (Uncaught (new_Error P (nullish_read P))), []).
Proof.
  intros Hfile Himport. unfold exec, start, load. rewrite Hfile, Himport.
  cbn [report error_payload fst snd emit app].
  by rewrite run_halted.
Qed.

(** [Cases.poisoned]: the module throws [null] while loading. *)
Lemma nullish_load_failure_is_not_reported_witness :
  exec Demo.platform Cases.poisoned Demo.hello 4
  = (goto (boot ExFalsy)
          (Uncaught (new_Error Demo.platform (nullish_read Demo.platform))), []).
Proof.
  apply (nullish_load_failure_is_not_reported Demo.platform Cases.poisoned
           Demo.hello "/build/api/hello.js" 4);
    reflexivity.
Defined.

(** ** The error report, both ways *)

(** X17. When the handler throws an error object and the POST of the report
    is answered, the script sends exactly that one report, then polls
    again. *)
Theorem handler_error_is_reported_once P E input s request c due dt ex
    message stack text dt' res :
  pc s = AwaitHandler request c ->
  timeout s = Some due ->
  call P (fn s) (calls s) request c = Throw dt ex ->
  ex = ThrownObj message stack ->
  JSON_stringify P (error_object message stack) = inr text ->
  endpoint E (fetches s) (post (error_path c) text) = Resolve dt' res ->
  (now s + dt + dt' < due)%N ->
  trace (run P E input 2 s)
  = [EvThrew ex;
     EvRequest (url input +:+ error_path c) (post (error_path c) text);
     EvResolved (post (error_path c) text) res;
     EvClearTimeout; EvSetTimeout WATCHDOG_MS;
     EvRequest (url input +:+ req_path poll_request) poll_request].
Proof. apply handler_error_reported_once. Qed.

(** [Cases.throws]: the handler throws [boom], the report is answered. *)
Lemma handler_error_is_reported_once_witness :
  req_path <$> requests (trace (run Demo.platform Cases.throws Demo.hello 2
                           (exec Demo.platform Cases.throws Demo.hello 1).1))
  = ["/runtime/invocation/abc-1/error"; "/runtime/invocation/next"].
Proof.
  destruct (demo_serialises_reports (Some "boom") (Some "Error: boom"))
    as [text Htext].
  rewrite (handler_error_is_reported_once Demo.platform Cases.throws Demo.hello
             (exec Demo.platform Cases.throws Demo.hello 1).1
             (VObj []) Worlds.abc1 900000 5 Worlds.boom
             (Some "boom") (Some "Error: boom") (Some text) 3 (Demo.ok ""));
    try reflexivity.
  exact Htext.
Defined.

(** X18. When the POST of the error report is rejected, nothing catches the
    rejection: the script ends there, uncaught, whatever the endpoint would
    have answered next. *)
Theorem rejected_error_report_is_fatal P E input s req c due dt err more :
  pc s = AwaitErrorPost req c ->
  timeout s = Some due -> (now s + dt < due)%N ->
  endpoint E (fetches s) req = Reject dt err ->
  exists s',
    run P E input (S more) s = (s', [EvRejected req err])
    /\ pc s' = Uncaught err.
Proof. apply error_post_rejected_is_uncaught. Qed.

(** [Worlds.unlucky]: the error POST fails after 3 ms. *)
Lemma rejected_error_report_is_fatal_witness :
  exists req,
    pc (exec Demo.platform Worlds.unlucky Demo.hello 2).1
    = AwaitErrorPost req Worlds.abc1
    /\ exists s',
         run Demo.platform Worlds.unlucky Demo.hello 5
             (exec Demo.platform Worlds.unlucky Demo.hello 2).1
         = (s', [EvRejected req Worlds.reset])
         /\ pc s' = Uncaught Worlds.reset.
Proof.
  eexists. split; [reflexivity|].
  apply (rejected_error_report_is_fatal Demo.platform Worlds.unlucky Demo.hello
           (exec Demo.platform Worlds.unlucky Demo.hello 2).1 _ Worlds.abc1
           900000 3 Worlds.reset 4);
    reflexivity.
Defined.


(** * Properties of [ensureUniqueConstructIds] *)

Section UniqueIdsFacts.

Import UniqueIds.

Lemma valid_id_nonempty i : valid_id i = true -> i <> EmptyString.
Proof. by destruct i. Qed.

Lemma truthy_own v : v <> EmptyString -> truthy (Some (Own v)) = true.
Proof. by destruct v. Qed.

Lemma is_config_cases cls :
  is_config cls = true -> cls = "Parameter" \/ cls = "Secret".
Proof.
  unfold is_config. intros H%bool_decide_eq_true.
  apply elem_of_cons in H as [->|H]; [by left|].
  apply elem_of_cons in H as [->|H]; [by right|].
  by apply elem_of_nil in H.
Qed.

Lemma visit_unchecked c ids : checked c = false -> visit c ids = Accepted ids.
Proof.
  unfold checked, visit. destruct (isSSTConstruct c); [|done].
  by destruct (isFunction c && doNotAllowOthersToBind c).
Qed.

Lemma visit_accepted c ids ids' :
  visit c ids = Accepted ids' -> checked c = true ->
  valid_id (id c) = true
  /\ vacant ids c
  /\ ids' = <[className c := <[normalize (id c) := id c]>
                               (default ∅ (ids !! className c))]> ids.
Proof.
  unfold checked, visit, vacant, store.
  destruct (isSSTConstruct c); [|done].
  destruct (isFunction c && doNotAllowOthersToBind c); [done|]. cbn [negb].
  destruct (valid_id (id c)); [|done]. cbn [negb]. intros Hv _.
  split; [done|].
  destruct (is_config (className c)).
  - unfold or_else in Hv.
    destruct (truthy (config_read ids "Secret" (normalize (id c)))) eqn:Hs.
    + destruct (config_read ids "Secret" (normalize (id c))) as [[v|k]|];
        [|done..].
      rewrite Hs in Hv. by destruct (String.eqb v (id c)).
    + destruct (config_read ids "Parameter" (normalize (id c))) as [[v|k]|]
        eqn:Hp; [|done|by simplify_eq].
      destruct (String.eqb v (id c)); [done|].
      destruct (truthy (Some (Own v))) eqn:Ht; [done|]. by simplify_eq.
  - destruct (ids !! className c) as [o|] eqn:Ho; cbn [default from_option Datatypes.id].
    + destruct (read o (normalize (id c))) as [[v|k]|]; [|done|by simplify_eq].
      destruct (truthy (Some (Own v))) eqn:Ht.
      * by destruct (String.eqb v (id c)).
      * by simplify_eq.
    + destruct (bool_decide (className c ∈ object_prototype)); [done|].
      destruct (read ∅ (normalize (id c))) as [[v|k]|] eqn:Hr;
        [|done|by simplify_eq].
      unfold read in Hr. rewrite lookup_empty in Hr.
      by destruct (bool_decide (normalize (id c) ∈ object_prototype)).
Qed.

Lemma visit_claims c ids ids' :
  visit c ids = Accepted ids' -> checked c = true -> claimed ids' c.
Proof.
  intros Hv Hc. destruct (visit_accepted c ids ids' Hv Hc) as (_ & _ & ->).
  eexists. split; [apply lookup_insert_eq|apply lookup_insert_eq].
Qed.

Lemma vacant_not_claimed ids c c0 :
  vacant ids c -> claimed ids c0 -> valid_id (id c0) = true ->
  space c = space c0 -> normalize (id c) = normalize (id c0) -> False.
Proof.
  unfold vacant, claimed, space. intros Hvac (o & Ho & Hk) Hvalid Hspace Hnorm.
  pose proof (truthy_own _ (valid_id_nonempty _ Hvalid)) as Htruthy.
  destruct (is_config (className c)) eqn:Hc,
           (is_config (className c0)) eqn:Hc0; try done.
  - destruct Hvac as [Hs Hp]. unfold config_read in *.
    destruct (is_config_cases _ Hc0) as [Hcls|Hcls]; rewrite Hcls in Ho;
      rewrite Hnorm in *.
    + rewrite Ho in Hp. unfold read in Hp. rewrite Hk in Hp. congruence.
    + rewrite Ho in Hs. unfold read in Hs. rewrite Hk in Hs. congruence.
  - simplify_eq. rewrite Hspace, Ho, Hnorm in Hvac. cbn [default from_option Datatypes.id] in Hvac.
    unfold read in Hvac. rewrite Hk in Hvac. congruence.
Qed.

Lemma visit_keeps_claims c ids ids' c0 :
  visit c ids = Accepted ids' ->
  claimed ids c0 -> valid_id (id c0) = true -> claimed ids' c0.
Proof.
  intros Hv Hclaimed Hvalid.
  destruct (checked c) eqn:Hc;
    [|by rewrite (visit_unchecked c ids Hc) in Hv; simplify_eq].
  destruct (visit_accepted c ids ids' Hv Hc) as (_ & Hvac & ->).
  destruct Hclaimed as (o & Ho & Hk). unfold claimed.
  destruct (decide (className c = className c0)) as [Hcls|Hcls].
  - rewrite <- Hcls, lookup_insert_eq. eexists. split; [done|].
    rewrite Hcls, Ho. cbn [default from_option Datatypes.id].
    destruct (decide (normalize (id c) = normalize (id c0))) as [Hn|Hn].
    + exfalso. apply (vacant_not_claimed ids c c0); try done.
      * by exists o.
      * unfold space. by rewrite Hcls.
    + by rewrite lookup_insert_ne.
  - exists o. by rewrite lookup_insert_ne.
Qed.

Lemma visit_keeps_consistent c ids ids' :
  visit c ids = Accepted ids' -> consistent ids -> consistent ids'.
Proof.
  intros Hv Hcons.
  destruct (checked c) eqn:Hc;
    [|by rewrite (visit_unchecked c ids Hc) in Hv; simplify_eq].
  destruct (visit_accepted c ids ids' Hv Hc) as (Hvalid & _ & ->).
  intros cls o k v Hcls Hk.
  destruct (decide (className c = cls)) as [<-|Hne].
  - rewrite lookup_insert_eq in Hcls. simplify_eq.
    destruct (decide (normalize (id c) = k)) as [<-|Hnk].
    + rewrite lookup_insert_eq in Hk. by simplify_eq.
    + rewrite lookup_insert_ne in Hk by done.
      destruct (ids !! className c) as [o|] eqn:Ho; cbn [default from_option Datatypes.id] in Hk.
      * by apply (Hcons _ _ _ _ Ho).
      * by rewrite lookup_empty in Hk.
  - rewrite lookup_insert_ne in Hcls by done. by apply (Hcons _ _ _ _ Hcls).
Qed.

Lemma visit_all_keeps cs : forall ids0 ids,
  visit_all cs ids0 = Accepted ids ->
  (consistent ids0 -> consistent ids)
  /\ (forall c0, claimed ids0 c0 -> valid_id (id c0) = true -> claimed ids c0)
  /\ (forall i c, cs !! i = Some c -> checked c = true ->
        claimed ids c /\ valid_id (id c) = true)
  /\ (forall c0 i c,
        claimed ids0 c0 -> valid_id (id c0) = true ->
        cs !! i = Some c -> checked c = true -> space c = space c0 ->
        normalize (id c) <> normalize (id c0))
  /\ (forall i j ci cj,
        i < j -> cs !! i = Some ci -> cs !! j = Some cj ->
        checked ci = true -> checked cj = true -> space ci = space cj ->
        normalize (id ci) <> normalize (id cj)).
Proof.
  induction cs as [|c cs IH]; intros ids0 ids Hall; cbn [visit_all] in Hall.
  - simplify_eq. split; [done|]. split; [done|].
    split; [intros i c Hi; by rewrite lookup_nil in Hi|].
    split; [intros c0 i c _ _ Hi; by rewrite lookup_nil in Hi|].
    intros i j ci cj _ Hi. by rewrite lookup_nil in Hi.
  - destruct (visit c ids0) as [ids1| |] eqn:Hv; try done.
    destruct (IH ids1 ids Hall) as (IHcons & IHkeep & IHclaims & IHold & IHpairs).
    split; [|split; [|split; [|split]]].
    + intros Hcons. by apply IHcons, (visit_keeps_consistent c ids0).
    + intros c0 Hc0 Hvalid. apply IHkeep; [|done].
      by apply (visit_keeps_claims c ids0).
    + intros [|i] ci Hi Hci; cbn in Hi; [simplify_eq|by apply (IHclaims i)].
      destruct (visit_accepted ci ids0 ids1 Hv Hci) as (Hvalid & _ & _).
      split; [|done]. apply IHkeep; [|done]. by apply (visit_claims ci ids0).
    + intros c0 [|i] ci Hc0 Hvalid Hi Hci Hspace Hnorm; cbn in Hi.
      * simplify_eq.
        destruct (visit_accepted ci ids0 ids1 Hv Hci) as (_ & Hvac & _).
        by apply (vacant_not_claimed ids0 ci c0).
      * apply (IHold c0 i ci); try done. by apply (visit_keeps_claims c ids0).
    + intros [|i] [|j] ci cj Hij Hi Hj Hci Hcj Hspace; cbn in Hi, Hj; try lia.
      * simplify_eq.
        destruct (visit_accepted ci ids0 ids1 Hv Hci) as (Hvalid & _ & _).
        intros Hnorm. apply (IHold ci j cj); try done.
        by apply (visit_claims ci ids0).
      * apply (IHpairs i j); try done. lia.
Qed.

Lemma consistent_empty : consistent ∅.
Proof. intros cls o k v Hcls. by rewrite lookup_empty in Hcls. Qed.

End UniqueIdsFacts.

Section UniqueIdsClaims.

Import UniqueIds.

Lemma exclusive_empty : exclusive ∅.
Proof. intros secrets parameters n v v' Hs. by rewrite lookup_empty in Hs. Qed.

Lemma own_is_truthy ids cls o n v :
  consistent ids -> ids !! cls = Some o -> o !! n = Some v ->
  truthy (config_read ids cls n) = true.
Proof.
  intros Hcons Ho Hn. unfold config_read, read. rewrite Ho, Hn.
  destruct (Hcons _ _ _ _ Ho Hn) as [Hvalid _].
  by apply truthy_own, valid_id_nonempty.
Qed.

Lemma visit_keeps_exclusive c ids ids' :
  visit c ids = Accepted ids' -> consistent ids -> exclusive ids ->
  exclusive ids'.
Proof.
  intros Hv Hcons Hex.
  destruct (checked c) eqn:Hc;
    [|by rewrite (visit_unchecked c ids Hc) in Hv; simplify_eq].
  destruct (visit_accepted c ids ids' Hv Hc) as (_ & Hvac & ->).
  intros secrets parameters n v v' Hs Hp Hsn Hpn. unfold vacant in Hvac.
  destruct (is_config (className c)) eqn:Hcfg.
  - destruct Hvac as [Hfree_s Hfree_p].
    destruct (is_config_cases _ Hcfg) as [Hcls|Hcls]; rewrite Hcls in *.
    + rewrite lookup_insert_ne in Hs by done.
      rewrite lookup_insert_eq in Hp. simplify_eq.
      destruct (decide (normalize (id c) = n)) as [<-|Hne].
      * by rewrite (own_is_truthy ids "Secret" secrets _ v) in Hfree_s.
      * rewrite lookup_insert_ne in Hpn by done.
        destruct (ids !! "Parameter") as [o|] eqn:Ho;
          cbn [default from_option Datatypes.id] in Hpn;
          [by apply (Hex secrets o n v v')|by rewrite lookup_empty in Hpn].
    + rewrite lookup_insert_ne in Hp by done.
      rewrite lookup_insert_eq in Hs. simplify_eq.
      destruct (decide (normalize (id c) = n)) as [<-|Hne].
      * by rewrite (own_is_truthy ids "Parameter" parameters _ v') in Hfree_p.
      * rewrite lookup_insert_ne in Hsn by done.
        destruct (ids !! "Secret") as [o|] eqn:Ho;
          cbn [default from_option Datatypes.id] in Hsn;
          [by apply (Hex o parameters n v v')|by rewrite lookup_empty in Hsn].
  - assert (className c <> "Secret" /\ className c <> "Parameter") as [Hns Hnp].
    { split; intros Heq; by rewrite Heq in Hcfg. }
    rewrite lookup_insert_ne in Hs, Hp by done.
    by apply (Hex secrets parameters n v v').
Qed.

Lemma visit_all_keeps_exclusive cs : forall ids0 ids,
  visit_all cs ids0 = Accepted ids -> consistent ids0 -> exclusive ids0 ->
  exclusive ids.
Proof.
  induction cs as [|c cs IH]; intros ids0 ids Hall Hcons Hex;
    cbn [visit_all] in Hall; [by simplify_eq|].
  destruct (visit c ids0) as [ids1| |] eqn:Hv; try done.
  apply (IH ids1); [done|by apply (visit_keeps_consistent c ids0)|].
  by apply (visit_keeps_exclusive c ids0).
Qed.

(** What [visit] answers when [c0] holds the normalised id that [c] asks
    for, in the same space. *)
Lemma visit_claimed c0 c ids :
  consistent ids -> exclusive ids ->
  claimed ids c0 -> valid_id (id c0) = true ->
  checked c = true -> valid_id (id c) = true ->
  space c = space c0 -> normalize (id c) = normalize (id c0) ->
  exists why,
    visit c ids = Rejected why
    /\ (is_config (className c) = false
        \/ normalize (id c) ∉ object_prototype ->
        why = if String.eqb (id c0) (id c) then duplicate c
              else near_duplicate c0 c).
Proof.
  intros Hcons Hex (o & Ho & Hk) Hvalid0 Hc Hvalid Hspace Hnorm.
  pose proof (truthy_own _ (valid_id_nonempty _ Hvalid0)) as Htruthy.
  unfold checked in Hc. apply andb_true_iff in Hc as [Hsst Hbind].
  unfold visit, duplicate, near_duplicate. rewrite Hsst.
  apply negb_true_iff in Hbind. rewrite Hbind, Hvalid. cbn [negb].
  unfold space in Hspace. rewrite Hnorm.
  destruct (is_config (className c)) eqn:Hcfg,
           (is_config (className c0)) eqn:Hcfg0; try done.
  - assert (Hown : config_read ids (className c0) (normalize (id c0))
                   = Some (Own (id c0)))
      by (unfold config_read, read; by rewrite Ho, Hk).
    unfold or_else.
    destruct (is_config_cases _ Hcfg0) as [Hcls|Hcls]; rewrite Hcls in *.
    + destruct (ids !! "Secret") as [secrets|] eqn:Hs.
      * destruct (secrets !! normalize (id c0)) as [v|] eqn:Hv;
          [exfalso; by apply (Hex secrets o (normalize (id c0)) v (id c0))|].
        unfold config_read at 1 2. rewrite Hs. unfold read at 1 2. rewrite Hv.
        destruct (bool_decide (normalize (id c0) ∈ object_prototype)) eqn:Hproto.
        -- cbn [truthy]. eexists. split; [reflexivity|].
           intros [?|Hout]; [done|]. by apply bool_decide_eq_true in Hproto.
        -- change (truthy None) with false. cbv iota. rewrite Hown.
           destruct (String.eqb (id c0) (id c)); [by eexists|].
           rewrite Htruthy. by eexists.
      * unfold config_read at 1 2. rewrite Hs.
        change (truthy None) with false. cbv iota. rewrite Hown.
        destruct (String.eqb (id c0) (id c)); [by eexists|].
        rewrite Htruthy. by eexists.
    + rewrite Hown, Htruthy.
      destruct (String.eqb (id c0) (id c)); [by eexists|].
      rewrite Htruthy. by eexists.
  - simplify_eq. rewrite Hspace, Ho. unfold read. rewrite Hk, Htruthy.
    destruct (String.eqb (id c0) (id c)); by eexists.
Qed.

End UniqueIdsClaims.

(** X19. After the aspect has visited a list of constructs without
    throwing, starting from the empty registry, every construct whose id
    is checked holds its normalised id in the registry of its class, and
    every entry of the registry maps the normalised form of a valid id to
    that id. *)
Theorem registry_holds_every_checked_id cs ids :
  UniqueIds.visit_all cs ∅ = UniqueIds.Accepted ids ->
  UniqueIds.consistent ids
  /\ forall i c, cs !! i = Some c -> UniqueIds.checked c = true ->
       UniqueIds.claimed ids c /\ UniqueIds.valid_id (UniqueIds.id c) = true.
Proof.
  intros Hall.
  destruct (visit_all_keeps cs ∅ ids Hall) as (Hcons & _ & Hclaims & _).
  split; [apply Hcons, consistent_empty|exact Hclaims].
Qed.


(** X21. Once a construct is accepted, whatever is accepted after it, a
    visit of a construct of the same space whose valid id has the same
    normalised form is refused.  The error is the [already exists] error
    of its kind when the ids are equal and the [underscore and hyphen]
    error naming the earlier id when they differ, except for a parameter
    or secret whose normalised id is a property name of [Object.prototype],
    where the error may name the inherited member instead. *)
Theorem second_claim_is_refused cs ids i c0 c :
  UniqueIds.visit_all cs ∅ = UniqueIds.Accepted ids ->
  cs !! i = Some c0 ->
  UniqueIds.checked c0 = true ->
  UniqueIds.checked c = true ->
  UniqueIds.valid_id (UniqueIds.id c) = true ->
  UniqueIds.space c = UniqueIds.space c0 ->
  UniqueIds.normalize (UniqueIds.id c) = UniqueIds.normalize (UniqueIds.id c0) ->
  exists why,
    UniqueIds.visit c ids = UniqueIds.Rejected why
    /\ (UniqueIds.is_config (UniqueIds.className c) = false
        \/ UniqueIds.normalize (UniqueIds.id c) ∉ UniqueIds.object_prototype ->
        why = if String.eqb (UniqueIds.id c0) (UniqueIds.id c)
              then UniqueIds.duplicate c
              else UniqueIds.near_duplicate c0 c).
Proof.
  intros Hall Hi Hc0.
  destruct (visit_all_keeps cs ∅ ids Hall) as (Hcons & _ & Hclaims & _).
  destruct (Hclaims i c0 Hi Hc0) as [Hclaimed Hvalid0].
  apply visit_claimed; try done.
  - apply Hcons, consistent_empty.
  - apply (visit_all_keeps_exclusive cs ∅); [done|apply consistent_empty|].
    apply exclusive_empty.
Qed.

(** The exception is real: after the parameter [toString] and the secret
    [a], the parameter [toString] is refused with the error that names the
    inherited member of the secrets' registry. *)
Example shadowed_parameter_is_refused_otherwise :
  exists ids,
    UniqueIds.visit_all Constructs.shadowed ∅ = UniqueIds.Accepted ids
    /\ UniqueIds.visit (Constructs.construct "Parameter" "toString") ids
       = UniqueIds.Rejected
           (UniqueIds.ConfigClash (UniqueIds.Builtin "toString") "toString").
Proof. eexists. split; vm_compute; reflexivity. Qed.

(** X22. An id that is a property name of [Object.prototype], such as
    [constructor] or [toString], is refused for every class other than
    Parameter and Secret, whatever constructs were accepted before: the
    lookup in the plain object finds the inherited member. *)
Theorem prototype_names_are_refused c ids :
  UniqueIds.consistent ids ->
  UniqueIds.checked c = true ->
  UniqueIds.valid_id (UniqueIds.id c) = true ->
  UniqueIds.is_config (UniqueIds.className c) = false ->
  UniqueIds.className c ∉ UniqueIds.object_prototype ->
  UniqueIds.normalize (UniqueIds.id c) ∈ UniqueIds.object_prototype ->
  exists why, UniqueIds.visit c ids = UniqueIds.Rejected why.
Proof.
  intros Hcons Hc Hvalid Hcfg Hcls Hproto.
  unfold UniqueIds.checked in Hc. apply andb_true_iff in Hc as [Hsst Hbind].
  apply negb_true_iff in Hbind.
  unfold UniqueIds.visit. rewrite Hsst, Hbind, Hvalid, Hcfg. cbn [negb].
  destruct (ids !! UniqueIds.className c) as [o|] eqn:Ho.
  - unfold UniqueIds.read.
    destruct (o !! UniqueIds.normalize (UniqueIds.id c)) as [v|] eqn:Hk.
    + destruct (Hcons _ _ _ _ Ho Hk) as [Hv _].
      rewrite (truthy_own _ (valid_id_nonempty _ Hv)).
      destruct (String.eqb v (UniqueIds.id c)); by eexists.
    + rewrite bool_decide_true by done. by eexists.
  - rewrite bool_decide_false by done. unfold UniqueIds.read.
    rewrite lookup_empty, bool_decide_true by done. by eexists.
Qed.

Lemma registry_holds_every_checked_id_witness :
  UniqueIds.visit_all Constructs.sample ∅ = UniqueIds.Accepted Constructs.sample_ids
  /\ UniqueIds.consistent Constructs.sample_ids
  /\ forall i c, Constructs.sample !! i = Some c -> UniqueIds.checked c = true ->
       UniqueIds.claimed Constructs.sample_ids c
       /\ UniqueIds.valid_id (UniqueIds.id c) = true.
Proof.
  split; [vm_compute; reflexivity|].
  apply (registry_holds_every_checked_id Constructs.sample Constructs.sample_ids).
  vm_compute; reflexivity.
Defined.


Lemma second_claim_is_refused_witness :
  UniqueIds.visit_all Constructs.sample ∅ = UniqueIds.Accepted Constructs.sample_ids
  /\ exists why,
       UniqueIds.visit (Constructs.construct "Bucket" "users_bucket")
                       Constructs.sample_ids
       = UniqueIds.Rejected why
       /\ (UniqueIds.is_config "Bucket" = false
           \/ "users_bucket" ∉ UniqueIds.object_prototype ->
           why = UniqueIds.HyphenClash "Bucket" (UniqueIds.Own "users-bucket")
                   "users_bucket").
Proof.
  split; [vm_compute; reflexivity|].
  apply (second_claim_is_refused Constructs.sample Constructs.sample_ids 0
           (Constructs.construct "Bucket" "users-bucket")
           (Constructs.construct "Bucket" "users_bucket")).
  - vm_compute; reflexivity.
  - reflexivity.
  - reflexivity.
  - reflexivity.
  - reflexivity.
  - reflexivity.
  - reflexivity.
Defined.

Lemma prototype_names_are_refused_witness :
  UniqueIds.valid_id "toString" = true
  /\ exists why,
       UniqueIds.visit (Constructs.construct "Bucket" "toString") ∅
       = UniqueIds.Rejected why.
Proof.
  split; [reflexivity|].
  apply (prototype_names_are_refused (Constructs.construct "Bucket" "toString") ∅).
  - apply consistent_empty.
  - reflexivity.
  - reflexivity.
  - reflexivity.
  - apply (bool_decide_unpack _). vm_compute. exact I.
  - apply (bool_decide_unpack _). vm_compute. exact I.
Defined.

(** ** The app and its stack names *)

Section SstAppFacts.

Import SstApp.

Lemma append_cons c (a b : string) : String c a +:+ b = String c (a +:+ b).
Proof. reflexivity. Qed.

Lemma append_nil (b : string) : "" +:+ b = b.
Proof. reflexivity. Qed.

Lemma prefix_spec (p s : string) :
  String.prefix p s = true <-> exists b, s = p +:+ b.
Proof.
  revert s. induction p as [|c p IH]; intros s.
  - split; [intros _; by exists s|intros _; by destruct s].
  - destruct s as [|d s]; cbn [String.prefix].
    + split; [done|]. intros [b Hb]. by rewrite append_cons in Hb.
    + destruct (Ascii.ascii_dec c d) as [->|Hne].
      * rewrite IH. split; intros [b Hb]; exists b.
        -- by rewrite append_cons, Hb.
        -- rewrite append_cons in Hb. by simplify_eq.
      * split; [done|]. intros [b Hb]. rewrite append_cons in Hb. by simplify_eq.
Qed.

Lemma endsWith_spec (x s : string) :
  endsWith x s = true <-> exists a, s = a +:+ x.
Proof.
  induction s as [|d s IH]; cbn [endsWith].
  - rewrite orb_false_r, String.eqb_eq. split.
    + intros ->. by exists "".
    + intros [[|c a] Ha]; [by rewrite append_nil in Ha|].
      by rewrite append_cons in Ha.
  - rewrite orb_true_iff, String.eqb_eq, IH. split.
    + intros [->|[a ->]]; [by exists ""|]. by exists (String d a).
    + intros [[|c a] Ha].
      * rewrite append_nil in Ha. by left.
      * rewrite append_cons in Ha. simplify_eq. right. by exists a.
Qed.

Lemma includes_spec (p s : string) :
  includes p s = true <-> exists a b, s = a +:+ p +:+ b.
Proof.
  induction s as [|d s IH]; cbn [includes].
  - rewrite orb_false_r, prefix_spec. split.
    + intros [b Hb]. by exists "", b.
    + intros ([|c a] & b & Hab); [by exists b|].
      by rewrite append_cons in Hab.
  - rewrite orb_true_iff, prefix_spec, IH. split.
    + intros [[b Hb]|(a & b & ->)]; [by exists "", b|]. by exists (String d a), b.
    + intros ([|c a] & b & Hab).
      * left. by exists b.
      * rewrite append_cons in Hab. simplify_eq. right. by exists a, b.
Qed.

End SstAppFacts.

(** X23. Every name that [logicalPrefixedName] builds passes the test that
    [finish] puts stack names to: a stack named through it is never the
    cause of the [not parameterized with the stage name] error. *)
Theorem logical_names_pass_the_stage_check (app : SstApp.App) (logicalName : string) :
  SstApp.stage_parameterized (SstApp.app_stage app)
    (SstApp.logicalPrefixedName app logicalName) = true.
Proof.
  unfold SstApp.stage_parameterized, SstApp.logicalPrefixedName.
  apply orb_true_iff; left. apply orb_true_iff; left.
  apply prefix_spec. eexists. by rewrite append_assoc.
Qed.

(** X24. The constructor never leaves the name or the stage empty, so on a
    constructed app [logicalPrefixedName] always gives stage, name and
    logical name joined by hyphens: its branch for an empty name is not
    taken. *)
Theorem constructed_name_is_never_empty
    (props : SstApp.AppDeployProps) (proc : SstApp.Process) (logicalName : string) :
  let app := SstApp.new_App props proc in
  SstApp.app_name app <> ""
  /\ SstApp.app_stage app <> ""
  /\ SstApp.logicalPrefixedName app logicalName
     = SstApp.app_stage app +:+ "-" +:+ SstApp.app_name app +:+ "-" +:+ logicalName.
Proof.
  cbn zeta. unfold SstApp.logicalPrefixedName, SstApp.new_App.
  cbn [SstApp.app_name SstApp.app_stage].
  destruct (SstApp.name props) as [[|c n]|], (SstApp.stage props) as [[|d s]|];
    cbn [SstApp.or_string]; repeat split; try done;
    try (cbn [String.eqb]; by rewrite ?append_assoc);
    by (change (String.eqb (String c n) "") with false; cbv iota;
        rewrite append_assoc).
Qed.

(** X25. An app that the constructor leaves not local was not started in
    dev mode and carries no debug field: the debug endpoint, bucket, start
    time, timeout flag and bridge are set only together with [local]. *)
Theorem debug_fields_need_a_local_app
    (props : SstApp.AppDeployProps) (proc : SstApp.Process) :
  let app := SstApp.new_App props proc in
  SstApp.app_local app = false ->
  SstApp.app_mode app <> SstApp.dev
  /\ SstApp.app_debugEndpoint app = None
  /\ SstApp.app_debugBucketArn app = None
  /\ SstApp.app_debugBucketName app = None
  /\ SstApp.app_debugStartedAt app = None
  /\ SstApp.app_debugIncreaseTimeout app = None
  /\ SstApp.app_debugBridge app = None.
Proof.
  cbn zeta. unfold SstApp.new_App. cbn -[SstApp.truthy].
  destruct (SstApp.truthy (SstApp.debugEndpoint props)); [done|].
  intros Hdev. repeat split. intros Hmode. by rewrite Hmode in Hdev.
Qed.

(** X26. [finish] accepts a stack name exactly when it starts with the
    stage and a hyphen, ends with a hyphen and the stage, or holds the
    stage between two hyphens. *)
Theorem stage_check_accepts (stg stackName : string) :
  SstApp.stage_parameterized stg stackName = true
  <-> (exists rest, stackName = stg +:+ "-" +:+ rest)
      \/ (exists front, stackName = front +:+ "-" +:+ stg)
      \/ (exists front rest, stackName = front +:+ "-" +:+ stg +:+ "-" +:+ rest).
Proof.
  unfold SstApp.stage_parameterized.
  rewrite !orb_true_iff, prefix_spec, endsWith_spec, includes_spec.
  split.
  - intros [[[b ->]|[a ->]]|(a & b & ->)].
    + left. exists b. by rewrite append_assoc.
    + right; left. by exists a.
    + right; right. exists a, b.
      change ("-" +:+ stg +:+ "-") with (String "-" (stg +:+ "-")).
      change ("-" +:+ stg +:+ "-" +:+ b) with (String "-" (stg +:+ "-" +:+ b)).
      rewrite (append_cons "-"%char (stg +:+ "-") b). by rewrite append_assoc.
  - intros [[b ->]|[[a ->]|(a & b & ->)]].
    + left; left. exists b. by rewrite append_assoc.
    + left; right. by exists a.
    + right. exists a, b.
      change ("-" +:+ stg +:+ "-") with (String "-" (stg +:+ "-")).
      change ("-" +:+ stg +:+ "-" +:+ b) with (String "-" (stg +:+ "-" +:+ b)).
      rewrite (append_cons "-"%char (stg +:+ "-") b). by rewrite append_assoc.
Qed.

Lemma debug_fields_need_a_local_app_witness :
  SstApp.app_local (SstApp.new_App SstApp.deployment SstApp.shell) = false
  /\ SstApp.app_debugBridge (SstApp.new_App SstApp.deployment SstApp.shell) = None.
Proof.
  split; [reflexivity|].
  apply (debug_fields_need_a_local_app SstApp.deployment SstApp.shell).
  reflexivity.
Defined.

(** ** The status of the bootstrap stack *)

Section BootstrapFacts.

Import Bootstrap.

Lemma note_version (found : option string * option string) (outputs : list Output) :
  (fold_left note outputs found).1
  = default found.1 (last_value OUTPUT_VERSION outputs).
Proof.
  revert found. induction outputs as [|o outputs IH]; intros found; [done|].
  cbn [fold_left]. rewrite IH. unfold last_value, note.
  rewrite filter_cons.
  destruct (decide (OutputKey o = Some OUTPUT_VERSION)) as [Hv|Hv].
  - rewrite bool_decide_true by done. rewrite last_cons.
    by destruct (last (filter _ outputs)).
  - rewrite bool_decide_false by done.
    by destruct (bool_decide (OutputKey o = Some OUTPUT_BUCKET)).
Qed.

Lemma note_bucket (found : option string * option string) (outputs : list Output) :
  (fold_left note outputs found).2
  = default found.2 (last_value OUTPUT_BUCKET outputs).
Proof.
  revert found. induction outputs as [|o outputs IH]; intros found; [done|].
  cbn [fold_left]. rewrite IH. unfold last_value, note.
  rewrite filter_cons.
  destruct (decide (OutputKey o = Some OUTPUT_BUCKET)) as [Hb|Hb].
  - rewrite (bool_decide_true (OutputKey o = Some OUTPUT_BUCKET)) by done.
    rewrite bool_decide_false by (by rewrite Hb). rewrite last_cons.
    by destruct (last (filter _ outputs)).
  - rewrite (bool_decide_false (OutputKey o = Some OUTPUT_BUCKET)) by done.
    by destruct (bool_decide (OutputKey o = Some OUTPUT_VERSION)).
Qed.

End BootstrapFacts.

(** X27. [loadSSTStatus] reads the version and the bucket from the last
    output of each key: it returns a status exactly when the last
    [Version] output and the last [BucketName] output both carry a
    non-empty value, and then returns those two values. An earlier output
    of the same key never counts, also when the last one has no value. *)
Theorem status_is_read_from_the_last_outputs
    (outputs : option (list Bootstrap.Output)) (st : Bootstrap.Status) :
  Bootstrap.parse_status outputs = Some st
  <-> Bootstrap.last_value Bootstrap.OUTPUT_VERSION (default [] outputs)
        = Some (Some (Bootstrap.version st))
      /\ Bootstrap.last_value Bootstrap.OUTPUT_BUCKET (default [] outputs)
        = Some (Some (Bootstrap.bucket st))
      /\ Bootstrap.version st <> ""
      /\ Bootstrap.bucket st <> "".
Proof.
  unfold Bootstrap.parse_status.
  pose proof (note_version (None, None) (default [] outputs)) as Hv.
  pose proof (note_bucket (None, None) (default [] outputs)) as Hb.
  destruct (fold_left Bootstrap.note (default [] outputs) (None, None)) as [v b].
  cbn [fst snd] in Hv, Hb. destruct st as [sv sb]. cbn [Bootstrap.version Bootstrap.bucket].
  destruct (Bootstrap.last_value Bootstrap.OUTPUT_VERSION (default [] outputs))
    as [lv|], (Bootstrap.last_value Bootstrap.OUTPUT_BUCKET (default [] outputs))
    as [lb|]; cbn [default from_option Datatypes.id] in Hv, Hb; subst v b.
  - destruct lv as [[|c v]|], lb as [[|d b]|]; split;
      try (intros (? & ? & ? & ?)); try intros ?; simplify_eq; done.
  - destruct lv as [[|c v]|]; split;
      try (intros (? & ? & ? & ?)); try intros ?; simplify_eq; done.
  - split; try (intros (? & ? & ? & ?)); try intros ?; simplify_eq; done.
  - split; try (intros (? & ? & ? & ?)); try intros ?; simplify_eq; done.
Qed.

(** X28. The status [useBootstrap] returns is the one it loaded only if
    that one has the latest version, and then SST is not bootstrapped;
    otherwise SST is bootstrapped and the status returned is the one
    reloaded afterwards, whose version is not compared with the latest.
    CDK is bootstrapped exactly when its status was not loaded, and before
    SST. *)
Theorem bootstrap_returns_latest_or_reloaded
    (cdkStatus : bool) (sstStatus reloaded : option Bootstrap.Status)
    (st : Bootstrap.Status) :
  (Bootstrap.useBootstrap cdkStatus sstStatus reloaded).2 = Some st ->
  let actions := (Bootstrap.useBootstrap cdkStatus sstStatus reloaded).1 in
  (Bootstrap.BootstrapCDK ∈ actions <-> cdkStatus = false)
  /\ (sstStatus = Some st
       /\ Bootstrap.version st = Bootstrap.LATEST_VERSION
       /\ Bootstrap.BootstrapSST ∉ actions
      \/ reloaded = Some st
         /\ Bootstrap.needToBootstrapSST sstStatus = true
         /\ exists before,
              actions = before ++ [Bootstrap.BootstrapSST; Bootstrap.ReloadStatus;
                                   Bootstrap.SpinnerSucceed]
              /\ Bootstrap.BootstrapSST ∉ before).
Proof.
  unfold Bootstrap.useBootstrap.
  destruct (Bootstrap.needToBootstrapSST sstStatus) eqn:Hneed.
  - rewrite orb_true_r. destruct reloaded as [r|]; [|done].
    cbn [fst snd]. intros [= ->]. cbn zeta. split.
    + destruct cdkStatus; cbn [negb app];
        rewrite !elem_of_cons, elem_of_nil; intuition discriminate.
    + right. split; [done|]. split; [done|].
      exists (Bootstrap.StartSpinner
              :: (if negb cdkStatus then [Bootstrap.BootstrapCDK] else [])).
      split; [done|]. destruct cdkStatus; cbn [negb];
        rewrite !elem_of_cons, elem_of_nil; intuition discriminate.
  - rewrite orb_false_r. destruct sstStatus as [s|]; [|done].
    cbn [Bootstrap.needToBootstrapSST] in Hneed.
    apply negb_false_iff, String.eqb_eq in Hneed.
    destruct cdkStatus; cbn [negb fst snd app]; intros [= ->]; cbn zeta; split.
    + rewrite elem_of_nil. intuition discriminate.
    + left. split; [done|]. split; [done|]. rewrite elem_of_nil. tauto.
    + rewrite !elem_of_cons, elem_of_nil. intuition discriminate.
    + left. split; [done|]. split; [done|].
      rewrite !elem_of_cons, elem_of_nil. intuition discriminate.
Qed.

Lemma bootstrap_returns_latest_or_reloaded_witness :
  Bootstrap.parse_status (Some Bootstrap.outdated)
  = Some {| Bootstrap.version := "6"; Bootstrap.bucket := "sstbootstrap-bucket" |}
  /\ (Bootstrap.useBootstrap false (Bootstrap.parse_status (Some Bootstrap.outdated))
        (Bootstrap.parse_status (Some Bootstrap.latest))).1
     = [Bootstrap.StartSpinner; Bootstrap.BootstrapCDK; Bootstrap.BootstrapSST;
        Bootstrap.ReloadStatus; Bootstrap.SpinnerSucceed]
  /\ (Bootstrap.BootstrapCDK
        ∈ (Bootstrap.useBootstrap false (Bootstrap.parse_status (Some Bootstrap.outdated))
             (Bootstrap.parse_status (Some Bootstrap.latest))).1
      <-> false = false).
Proof.
  split; [reflexivity|]. split; [reflexivity|].
  apply (bootstrap_returns_latest_or_reloaded false
           (Bootstrap.parse_status (Some Bootstrap.outdated))
           (Bootstrap.parse_status (Some Bootstrap.latest))
           {| Bootstrap.version := "7"; Bootstrap.bucket := "sstbootstrap-bucket" |}).
  reflexivity.
Defined.
